(** * Hybrid vulnerability detector: rule matcher, scorer, severity resolver

    A shallow embedding of [static_analysis.py], [ml_model.py],
    [hybrid_detector.py] and the analysis loop of [app.py], and the
    properties of the hybrid decision engine proved (or refuted) over it.

    Conventions of the embedding.
    - A Python [float] is an IEEE-754 binary64 number: Rocq's primitive
      [float], compared with [PrimFloat.leb] (a comparison with NaN is false,
      as in Python).
    - A Python [str] is a [string]; its characters are read as the code points
      U+0000..U+00FF, and the character classes of [str] and [re] are the
      ones CPython has on that range.
    - A [Dict[str, Any]] read with [.get] is a [gmap string pyval]; a dict
      built with a fixed set of keys and only read by key is a record.
    - A call that can raise returns an [outcome]; code that reads or writes
      the module globals of [ml_model.py] threads the [world] explicitly. *)

From Stdlib Require Import Floats.PrimFloat Ascii.
From Stdlib Require Floats.FloatAxioms Floats.SpecFloat.
From stdpp Require Import gmap strings list fin_maps sorting.

(** ** Python values and exceptions *)

(** The values the program stores in the dictionaries it passes around. *)
Inductive pyval : Type :=
  | VNone
  | VFloat (f : float)
  | VStr (s : string).

Inductive exn : Type :=
  | FileNotFoundError (msg : string)
  | TypeError
  | IndexError
  | AttributeError
  | UnpicklingError.

Inductive outcome (A : Type) : Type :=
  | Return (a : A)
  | Raise (e : exn).
Arguments Return {A} a.
Arguments Raise {A} e.

#[global] Instance outcome_ret : MRet outcome := λ A a, Return a.
#[global] Instance outcome_bind : MBind outcome := λ A B k c,
  match c with
  | Return a => k a
  | Raise e => Raise e
  end.
#[global] Instance outcome_throw : MThrow exn outcome := λ A e, Raise e.

(** [d.get(key, default)] *)
Definition dict_get (d : gmap string pyval) (key : string) (dflt : pyval) : pyval :=
  default dflt (d !! key).

(** [v >= t] for a float [t]: defined on floats, a [TypeError] on [None]
    and on strings. *)
Definition py_ge (v : pyval) (t : float) : outcome bool :=
  match v with
  | VFloat f => Return (PrimFloat.leb t f)
  | VNone | VStr _ => Raise TypeError
  end.

(** [v == s] for a string literal [s]: never raises. *)
Definition py_eq_str (v : pyval) (s : string) : bool :=
  match v with
  | VStr s' => String.eqb s' s
  | VNone | VFloat _ => false
  end.

(** [l[i]]: an [IndexError] out of range. *)
Definition py_index {A} (l : list A) (i : nat) : outcome A :=
  match l !! i with
  | Some x => Return x
  | None => Raise IndexError
  end.

(** [enumerate(l, start)] *)
Fixpoint enumerate {A} (l : list A) (start : nat) : list (nat * A) :=
  match l with
  | [] => []
  | x :: l' => (start, x) :: enumerate l' (S start)
  end.

(** ** Characters and strings *)

Module Str.

Definition ord (c : ascii) : N := N_of_ascii c.

Definition in_range (lo hi : N) (c : ascii) : bool :=
  ((lo <=? ord c) && (ord c <=? hi))%N.

(** The double quote, which a string literal cannot hold directly. *)
Definition dquote : ascii := ascii_of_N 34.

(** [str.isspace], also the class [\s] of [re] on a [str] pattern. *)
Definition isspace (c : ascii) : bool :=
  in_range 9 13 c || in_range 28 32 c || (ord c =? 133)%N || (ord c =? 160)%N.

(** [str.isalnum] on U+0000..U+00FF. *)
Definition isalnum (c : ascii) : bool :=
  in_range 48 57 c || in_range 65 90 c || in_range 97 122 c
  || (ord c =? 170)%N || in_range 178 179 c || (ord c =? 181)%N
  || in_range 185 186 c || in_range 188 190 c
  || in_range 192 214 c || in_range 216 246 c || in_range 248 255 c.

(** The class [\w] of [re]: alphanumeric or underscore. *)
Definition isword (c : ascii) : bool := isalnum c || (ord c =? 95)%N.

(** The characters at which [str.splitlines] ends a line. *)
Definition is_linebreak (c : ascii) : bool :=
  in_range 10 13 c || in_range 28 30 c || (ord c =? 133)%N.

(** Simple lower-casing, as [re.IGNORECASE] applies it to a character. *)
Definition tolower (c : ascii) : ascii :=
  if in_range 65 90 c || in_range 192 214 c || in_range 216 222 c
  then ascii_of_N (ord c + 32) else c.

Fixpoint lstrip (s : string) : string :=
  match s with
  | EmptyString => EmptyString
  | String c s' => if isspace c then lstrip s' else s
  end.

Fixpoint rstrip (s : string) : string :=
  match s with
  | EmptyString => EmptyString
  | String c s' =>
      match rstrip s' with
      | EmptyString => if isspace c then EmptyString else String c EmptyString
      | t => String c t
      end
  end.

(** [s.strip()] *)
Definition strip (s : string) : string := rstrip (lstrip s).

(** [s.splitlines()], scanning left to right with the line read so far in
    [cur]: a line break ends the current line (a carriage return directly
    followed by a line feed is one break), and what is left at the end of
    the text is a last line only when it is not empty. *)
Fixpoint splitlines_from (cur : string) (s : string) : list string :=
  match s with
  | EmptyString => match cur with EmptyString => [] | _ => [cur] end
  | String c s' =>
      if is_linebreak c then
        match s' with
        | String c' s'' =>
            if (ord c =? 13)%N && (ord c' =? 10)%N
            then cur :: splitlines_from EmptyString s''
            else cur :: splitlines_from EmptyString s'
        | EmptyString => cur :: splitlines_from EmptyString s'
        end
      else splitlines_from (cur +:+ String c EmptyString) s'
  end.

Definition splitlines (s : string) : list string := splitlines_from EmptyString s.

End Str.

(** ** The fragment of [re] the rule patterns use *)

Module Re.

(** A set of characters: one item of a pattern that consumes a character. *)
Inductive cset : Type :=
  | Dot                        (* [.]: any character but the line feed *)
  | Space                      (* [\s] *)
  | Lit (c : ascii)            (* a literal character *)
  | LitI (c : ascii)           (* a literal character under IGNORECASE *)
  | Range (lo hi : ascii)      (* [lo-hi] inside a bracket *)
  | Union (a b : cset).        (* a bracket with several items *)

Fixpoint cset_mem (cs : cset) (c : ascii) : bool :=
  match cs with
  | Dot => negb (Str.ord c =? 10)%N
  | Space => Str.isspace c
  | Lit l => Ascii.eqb c l
  | LitI l => Ascii.eqb (Str.tolower c) (Str.tolower l)
  | Range lo hi => Str.in_range (Str.ord lo) (Str.ord hi) c
  | Union a b => cset_mem a c || cset_mem b c
  end.

Inductive regex : Type :=
  | Eps
  | Chr (cs : cset)
  | WordBoundary               (* [\b] *)
  | Cat (r1 r2 : regex)
  | Alt (r1 r2 : regex)
  | Star (r : regex).

(** [r+] and [r{n}] *)
Definition Plus (r : regex) : regex := Cat r (Star r).
Fixpoint Rep (n : nat) (r : regex) : regex :=
  match n with
  | 0 => Eps
  | S n' => Cat r (Rep n' r)
  end.

(** A literal word, character by character. *)
Fixpoint word (lit : ascii -> cset) (s : string) : regex :=
  match s with
  | EmptyString => Eps
  | String c EmptyString => Chr (lit c)
  | String c s' => Cat (Chr (lit c)) (word lit s')
  end.

(** [w1|w2|...] *)
Fixpoint alts (rs : list regex) : regex :=
  match rs with
  | [] => Eps
  | [r] => r
  | r :: rs' => Alt r (alts rs')
  end.

Section Matching.
(** The subject of the match; positions are indices into it,
    [0 .. length subject]. *)
Variable subject : list ascii.

Definition word_at (i : nat) : bool :=
  match subject !! i with
  | Some c => Str.isword c
  | None => false
  end.

(** [\b] holds at [i] when exactly one of the characters before and at
    [i] is a word character (outside the subject counts as not one). *)
Definition at_boundary (i : nat) : bool :=
  xorb (match i with 0 => false | S j => word_at j end) (word_at i).

(** The positions reachable from [i] by repeating [step] zero or more
    times; a repetition that consumes nothing reaches nothing new. *)
Fixpoint star_from (step : nat -> list nat) (fuel : nat) (i : nat) : list nat :=
  match fuel with
  | 0 => [i]
  | S fuel' =>
      i :: remove_dups
             (flat_map (star_from step fuel')
                (filter (λ j, i < j) (step i)))
  end.

(** [ends r i]: every position [j] such that [r] matches
    [subject[i:j]]. *)
Fixpoint ends (r : regex) (i : nat) : list nat :=
  match r with
  | Eps => [i]
  | Chr cs =>
      match subject !! i with
      | Some c => if cset_mem cs c then [S i] else []
      | None => []
      end
  | WordBoundary => if at_boundary i then [i] else []
  | Cat r1 r2 => remove_dups (flat_map (ends r2) (ends r1 i))
  | Alt r1 r2 => remove_dups (ends r1 i ++ ends r2 i)
  | Star r' => star_from (ends r') (length subject - i) i
  end.

(** Is there a match of [r] starting anywhere in the subject? *)
Definition search_re (r : regex) : bool :=
  existsb (λ i, match ends r i with [] => false | _ => true end)
    (seq 0 (S (length subject))).
End Matching.

(** A compiled pattern object: its source text [pattern] and what it
    matches. *)
Record Pattern : Type := {
  pattern : string;
  compiled : regex;
}.

(** [p.search(line)], read as a truth value. *)
Definition search (p : Pattern) (line : string) : bool :=
  search_re (String.list_ascii_of_string line) (compiled p).

End Re.

(** ** static_analysis.py *)

Module StaticAnalysis.
Import Re.

(** [a b c ...]: the items of a pattern in sequence. *)
Fixpoint cats (rs : list regex) : regex :=
  match rs with
  | [] => Eps
  | [r] => r
  | r :: rs' => Cat r (cats rs')
  end.

(** A keyword of a pattern compiled with [re.IGNORECASE], and one of a
    pattern compiled without. *)
Definition kwi (s : string) : regex := word LitI s.
Definition kw (s : string) : regex := word Lit s.

(** The two characters backslash, double quote of the credential pattern's
    source. *)
Definition esc_dquote : string :=
  String (ascii_of_N 92) (String Str.dquote EmptyString).

Definition sql_verb : regex :=
  alts [kwi "SELECT"; kwi "UPDATE"; kwi "DELETE"; kwi "INSERT"].

Definition SQL_INJECTION_PATTERNS : list Pattern := [
  (* Concatenating user input into SQL string *)
  {| pattern := "(SELECT|UPDATE|DELETE|INSERT)\s+.+\s+(FROM|INTO)\s+.+\+.+";
     compiled :=
       cats [sql_verb; Plus (Chr Space); Plus (Chr Dot); Plus (Chr Space);
             alts [kwi "FROM"; kwi "INTO"]; Plus (Chr Space); Plus (Chr Dot);
             Chr (LitI "+"); Plus (Chr Dot)] |};
  (* Using format or f-string with SQL keywords *)
  {| pattern := "(SELECT|UPDATE|DELETE|INSERT).*(%s|\{.*\})";
     compiled :=
       cats [sql_verb; Star (Chr Dot);
             alts [kwi "%s";
                   cats [Chr (LitI "{"); Star (Chr Dot); Chr (LitI "}")]]] |}
].

Definition quote_char : cset := Union (LitI "'") (LitI Str.dquote).

Definition HARDCODED_CREDENTIAL_PATTERNS : list Pattern := [
  (* simple passwords, api keys variables *)
  {| pattern := "(password|passwd|pwd|secret|token|api_key)\s*=\s*['"
                +:+ esc_dquote +:+ "].+['" +:+ esc_dquote +:+ "]";
     compiled :=
       cats [alts [kwi "password"; kwi "passwd"; kwi "pwd"; kwi "secret";
                   kwi "token"; kwi "api_key"];
             Star (Chr Space); Chr (LitI "="); Star (Chr Space);
             Chr quote_char; Plus (Chr Dot); Chr quote_char] |};
  (* AWS style access key id *)
  {| pattern := "AKIA[0-9A-Z]{16}";
     compiled :=
       cats [kw "AKIA"; Rep 16 (Chr (Union (Range "0" "9") (Range "A" "Z")))] |}
].

Definition UNSAFE_EVAL_PATTERNS : list Pattern := [
  (* direct eval or exec usage *)
  {| pattern := "\beval\(";
     compiled := cats [WordBoundary; kw "eval"; Chr (Lit "(")] |};
  {| pattern := "\bexec\(";
     compiled := cats [WordBoundary; kw "exec"; Chr (Lit "(")] |}
].

(** A finding: the dict with the keys [rule], [line], [snippet] and
    [pattern] that [_scan_patterns] builds. *)
Record Finding : Type := {
  rule : string;
  line : nat;
  snippet : string;
  pattern : string;
}.

(** The two nested loops of [_scan_patterns]; [findings.append(x)] is
    [findings ++ [x]]. *)
Definition _scan_patterns (lines : list string) (patterns : list Pattern)
    (rule_name : string) : list Finding :=
  fold_left
    (λ findings '(idx, ln),
       fold_left
         (λ findings pat,
            if search pat ln
            then findings ++ [ {| rule := rule_name;
                                  line := idx;
                                  snippet := Str.strip ln;
                                  pattern := Re.pattern pat |} ]
            else findings)
         patterns findings)
    (enumerate lines 1) [].

(** [analyze_code_static(code)]; [findings.extend(xs)] is
    [findings ++ xs]. *)
Definition analyze_code_static (code : string) : list Finding :=
  let lines := Str.splitlines code in
  let findings := [] in
  let findings := findings ++ _scan_patterns lines SQL_INJECTION_PATTERNS "SQL_INJECTION" in
  let findings :=
    findings ++ _scan_patterns lines HARDCODED_CREDENTIAL_PATTERNS "HARDCODED_CREDENTIAL" in
  let findings := findings ++ _scan_patterns lines UNSAFE_EVAL_PATTERNS "UNSAFE_EVAL" in
  findings.

End StaticAnalysis.

(** ** ml_model.py *)

Module MlModel.

(** The fitted pipeline, as far as the program uses it: [predict_proba]
    gives one row of class probabilities per sample. [predict], the
    pipeline's own class label per sample, is there to be seen unused. *)
Record Model : Type := {
  predict_proba : list string → list (list float);
  predict : list string → list nat;
}.

(** What a path of the file system holds: a pickled pipeline, or bytes
    that [joblib.load] cannot read. An artifact that unpickles to
    something else than a pipeline, and the other exceptions
    [joblib.load] can raise, are not modelled. *)
Inductive file : Type :=
  | Pickled (m : Model)
  | Garbage.

(** The process state the module reads and writes: the global [_MODEL],
    the environment variable [ML_MODEL_PATH], the file system, and the
    constant [DEFAULT_MODEL_PATH] computed at import. *)
Record world : Type := {
  _MODEL : option Model;
  ML_MODEL_PATH : option string;
  files : gmap string file;
  DEFAULT_MODEL_PATH : string;
}.

Definition py (A : Type) : Type := world → outcome A * world.

#[global] Instance py_ret : MRet py := λ A a w, (Return a, w).
#[global] Instance py_bind : MBind py := λ A B k c w,
  match c w with
  | (Return a, w') => k a w'
  | (Raise e, w') => (Raise e, w')
  end.
#[global] Instance py_throw : MThrow exn py := λ A e w, (Raise e, w).

(** A computation that touches no global. *)
Definition pure {A} (c : outcome A) : py A := λ w, (c, w).

Definition get_MODEL : py (option Model) := λ w, (Return (_MODEL w), w).
Definition set_MODEL (m : Model) : py () := λ w,
  (Return (),
   {| _MODEL := Some m; ML_MODEL_PATH := ML_MODEL_PATH w;
      files := files w; DEFAULT_MODEL_PATH := DEFAULT_MODEL_PATH w |}).

(** [os.getenv("ML_MODEL_PATH", DEFAULT_MODEL_PATH)] *)
Definition configured_path (w : world) : string :=
  default (DEFAULT_MODEL_PATH w) (ML_MODEL_PATH w).
Definition getenv_model_path : py string := λ w, (Return (configured_path w), w).

(** [os.path.exists(path)] *)
Definition path_exists (path : string) : py bool := λ w,
  (Return (bool_decide (is_Some (files w !! path))), w).

(** [joblib.load(path)] of a path that exists. *)
Definition joblib_load (path : string) : py Model := λ w,
  match files w !! path with
  | Some (Pickled m) => (Return m, w)
  | Some Garbage => (Raise UnpicklingError, w)
  | None => (Raise (FileNotFoundError path), w)
  end.

Definition not_found_message (model_path : string) : string :=
  "ML model not found at " +:+ model_path +:+ ". "
  +:+ "Run train_model.py first to train and save the model.".

(** [load_model()], for one caller at a time: [_MODEL_LOCK] is free when
    the call starts and the [with] block frees it again however it is
    left, so the lock is no part of this state (the interleaving of
    several callers is [Concurrent], below). The value returned is the
    global as it is after the block. *)
Definition load_model : py (option Model) :=
  (cur ← get_MODEL;
   match cur with
   | None =>
       model_path ← getenv_model_path;
       found ← path_exists model_path;
       if negb found
       then mthrow (FileNotFoundError (not_found_message model_path))
       else (m ← joblib_load model_path; set_MODEL m)
   | Some _ => mret ()
   end) ;;
  get_MODEL.

(** The dict [{"label": label, "probability": proba}]. *)
Definition score_dict (label : string) (proba : float) : gmap string pyval :=
  {[ "label" := VStr label; "probability" := VFloat proba ]}.

(** [predict_vulnerability(code, threshold)]; [model.predict_proba] on
    [None] is an [AttributeError], the two subscripts can be
    [IndexError]s, and [float(proba)] of a float is that float. *)
Definition predict_vulnerability (code : string) (threshold : float)
    : py (gmap string pyval) :=
  loaded ← load_model;
  match loaded with
  | None => mthrow AttributeError
  | Some model =>
      proba ← pure (row ← py_index (predict_proba model [code]) 0;
                    py_index row 1);
      let label :=
        if PrimFloat.leb threshold proba then "vulnerable" else "safe" in
      mret (score_dict label proba)
  end.

End MlModel.

(** ** ml_model.py, several callers of [load_model] at once *)

Module Concurrent.
Import MlModel.

(** Where a caller of [load_model] is: before a statement of the function,
    or finished. A caller between [AtTest] and [AtExit] is inside the
    [with _MODEL_LOCK:] block. *)
Inductive pc : Type :=
  | AtEnter                        (* before [with _MODEL_LOCK:] *)
  | AtTest                         (* before [if _MODEL is None:] *)
  | AtPath                         (* before the [getenv] and the [exists] test *)
  | AtLoad (model_path : string)   (* before the call [joblib.load(model_path)] *)
  | AtStore (m : Model)            (* before the assignment [_MODEL = ...] *)
  | AtExit (pending : option exn)  (* leaving the block, an exception pending or not *)
  | AtReturn                       (* before [return _MODEL] *)
  | Returned (r : option Model)
  | Raised (e : exn).

(** The process: the globals, the caller that holds [_MODEL_LOCK] if any,
    how many calls of [joblib.load] have run so far, and the callers. *)
Record config : Type := {
  globals : world;
  holder : option nat;
  loads : nat;
  callers : list pc;
}.

Definition move (i : nat) (next : pc) (c : config) : config :=
  {| globals := globals c; holder := holder c; loads := loads c;
     callers := <[i := next]> (callers c) |}.

Definition set_holder (h : option nat) (c : config) : config :=
  {| globals := globals c; holder := h; loads := loads c;
     callers := callers c |}.

Definition set_globals (w : world) (c : config) : config :=
  {| globals := w; holder := holder c; loads := loads c;
     callers := callers c |}.

Definition count_load (c : config) : config :=
  {| globals := globals c; holder := holder c; loads := S (loads c);
     callers := callers c |}.

(** One statement of caller [i]; [None] when the caller is finished, does
    not exist, or waits for the lock. *)
Definition thread_step (i : nat) (c : config) : option config :=
  match callers c !! i with
  | None => None
  | Some AtEnter =>
      match holder c with
      | None => Some (move i AtTest (set_holder (Some i) c))
      | Some _ => None
      end
  | Some AtTest =>
      match _MODEL (globals c) with
      | None => Some (move i AtPath c)
      | Some _ => Some (move i (AtExit None) c)
      end
  | Some AtPath =>
      let model_path := configured_path (globals c) in
      if bool_decide (is_Some (files (globals c) !! model_path))
      then Some (move i (AtLoad model_path) c)
      else Some (move i (AtExit (Some (FileNotFoundError
                                         (not_found_message model_path)))) c)
  | Some (AtLoad model_path) =>
      match (joblib_load model_path (globals c)).1 with
      | Return m => Some (move i (AtStore m) (count_load c))
      | Raise e => Some (move i (AtExit (Some e)) (count_load c))
      end
  | Some (AtStore m) =>
      Some (move i (AtExit None) (set_globals (set_MODEL m (globals c)).2 c))
  | Some (AtExit None) => Some (move i AtReturn (set_holder None c))
  | Some (AtExit (Some e)) => Some (move i (Raised e) (set_holder None c))
  | Some AtReturn => Some (move i (Returned (_MODEL (globals c))) c)
  | Some (Returned _) | Some (Raised _) => None
  end.

(** The process moves when one of its callers does. *)
Definition step (c c' : config) : Prop := ∃ i, thread_step i c = Some c'.

(** [n] callers about to call [load_model] in world [w], the lock free. *)
Definition start (w : world) (n : nat) : config :=
  {| globals := w; holder := None; loads := 0; callers := replicate n AtEnter |}.

(** The callers taking turns as [schedule] lists them; a turn given to a
    caller that cannot move is lost. *)
Fixpoint run (schedule : list nat) (c : config) : config :=
  match schedule with
  | [] => c
  | i :: schedule' => run schedule' (default c (thread_step i c))
  end.

Definition finished (p : pc) : bool :=
  match p with
  | Returned _ | Raised _ => true
  | _ => false
  end.

Definition in_block (p : pc) : bool :=
  match p with
  | AtTest | AtPath | AtLoad _ | AtStore _ | AtExit _ => true
  | _ => false
  end.

End Concurrent.

(** ** hybrid_detector.py *)

Module HybridDetector.
Import StaticAnalysis MlModel.

(** The default of [threshold] and of [ml_threshold]. *)
Definition default_threshold : float := 0.5%float.

(** [compute_severity(static_findings, ml_result, ml_threshold)].
    The [or] of the ml-flag is short-circuiting: the label is looked at
    only when the comparison is false. *)
Definition compute_severity {F : Type} (static_findings : list F)
    (ml_result : gmap string pyval) (ml_threshold : float) : outcome string :=
  let has_static := bool_decide (0 < length static_findings) in
  let ml_prob := dict_get ml_result "probability" (VFloat 0%float) in
  py_ge ml_prob ml_threshold ≫= λ above : bool,
  let ml_flag :=
    if above then true
    else py_eq_str (dict_get ml_result "label" VNone) "vulnerable" in
  if has_static && ml_flag then Return "HIGHty"
  else if has_static || ml_flag then Return "MEDIUM"
  else Return "SAFEtt".

(** The report dict of [analyze_file]. *)
Record AnalysisResult : Type := {
  file_path : string;
  static_findings : list Finding;
  ml_result : gmap string pyval;
  severity : string;
}.

(** [analyze_file(file_path, code)] *)
Definition analyze_file (path code : string) : py AnalysisResult :=
  let findings := analyze_code_static code in
  result ← predict_vulnerability code default_threshold;
  sev ← pure (compute_severity findings result default_threshold);
  mret {| file_path := path;
          static_findings := findings;
          ml_result := result;
          severity := sev |}.

End HybridDetector.

(** ** app.py *)

Module App.
Import StaticAnalysis MlModel HybridDetector.

(** An entry of [changed_files]: the dict with the keys [filename],
    [content] and [status] that [fetch_changed_python_files] builds. *)
Record FileInfo : Type := {
  filename : string;
  content : string;
  status : string;
}.

(** The loop of step 2 of [github_webhook], from the lists as they are
    before an entry to the lists after the last one. *)
Fixpoint analyze_changed (changed_files : list FileInfo)
    (results high_severity_results : list AnalysisResult)
    : py (list AnalysisResult * list AnalysisResult) :=
  match changed_files with
  | [] => mret (results, high_severity_results)
  | file_info :: rest =>
      result ← analyze_file (filename file_info) (content file_info);
      let results := results ++ [result] in
      let high_severity_results :=
        if String.eqb (severity result) "HIGH"
        then high_severity_results ++ [result]
        else high_severity_results in
      analyze_changed rest results high_severity_results
  end.

(** Step 2 of [github_webhook]: both lists start empty. *)
Definition run_analysis (changed_files : list FileInfo)
    : py (list AnalysisResult * list AnalysisResult) :=
  analyze_changed changed_files [] [].

(** Step 5 of [github_webhook]: is [send_slack_notification] called? *)
Definition notifies_slack (high_severity_results : list AnalysisResult) : bool :=
  bool_decide (0 < length high_severity_results).

End App.

(** * The vocabulary of the properties *)

Module Spec.
Import Re StaticAnalysis MlModel HybridDetector Concurrent.

(** ** Rule matcher *)

(** What it means for a pattern to match the subject between two
    positions. *)
Inductive matches (subject : list ascii) : regex → nat → nat → Prop :=
  | matches_eps i : matches subject Eps i i
  | matches_chr cs i c :
      subject !! i = Some c → cset_mem cs c = true →
      matches subject (Chr cs) i (S i)
  | matches_boundary i :
      at_boundary subject i = true → matches subject WordBoundary i i
  | matches_cat r1 r2 i j k :
      matches subject r1 i j → matches subject r2 j k →
      matches subject (Cat r1 r2) i k
  | matches_alt_l r1 r2 i j :
      matches subject r1 i j → matches subject (Alt r1 r2) i j
  | matches_alt_r r1 r2 i j :
      matches subject r2 i j → matches subject (Alt r1 r2) i j
  | matches_star_stop r i : matches subject (Star r) i i
  | matches_star_more r i j k :
      matches subject r i j → matches subject (Star r) j k →
      matches subject (Star r) i k.
(** The finding [_scan_patterns] appends for pattern [pat] on line [idx]. *)
Definition finding_of (rule_name : string) (idx : nat) (ln : string)
    (pat : Pattern) : Finding :=
  {| rule := rule_name; line := idx; snippet := Str.strip ln;
     pattern := Re.pattern pat |}.

(** The findings of one rule group as the text describes them: lines in
    ascending order, and for each line one finding per pattern of the
    group that matches it. *)
Definition group_findings (lines : list string) (patterns : list Pattern)
    (rule_name : string) : list Finding :=
  '(idx, ln) ← enumerate lines 1;
  pat ← filter (λ pat, search pat ln = true) patterns;
  [finding_of rule_name idx ln pat].

(** The rule groups in their order of declaration. *)
Definition rule_groups : list (string * list Pattern) :=
  [("SQL_INJECTION", SQL_INJECTION_PATTERNS);
   ("HARDCODED_CREDENTIAL", HARDCODED_CREDENTIAL_PATTERNS);
   ("UNSAFE_EVAL", UNSAFE_EVAL_PATTERNS)].

(** A line that no pattern of any rule group matches. *)
Definition matches_nothing (ln : string) : Prop :=
  ∀ rule_name patterns pat,
    (rule_name, patterns) ∈ rule_groups → pat ∈ patterns →
    search pat ln = false.

Definition quiet (ln : string) : bool :=
  forallb (λ '(_, patterns), forallb (λ pat, negb (search pat ln)) patterns)
    rule_groups.

(** Which of the six patterns match a line, in the order SQL
    (concatenation, format), credential (assignment, access key), eval,
    exec. *)
Definition hits (ln : string) : list bool :=
  '(_, patterns) ← rule_groups; pat ← patterns; [search pat ln].

(** The credential assignment of the line-numbering example. *)
Definition credential_line : string :=
  "password = " +:+ String Str.dquote ("abc123" +:+ String Str.dquote "").

(** The source text of the first credential pattern. *)
Definition credential_pattern : string :=
  "(password|passwd|pwd|secret|token|api_key)\s*=\s*['"
  +:+ esc_dquote +:+ "].+['" +:+ esc_dquote +:+ "]".

(** ** Scorer *)

(** The world after [_MODEL = m]. *)
Definition install (m : Model) (w : world) : world := (set_MODEL m w).2.

(** The label the scorer derives from a probability. *)
Definition label_of (threshold proba : float) : string :=
  if PrimFloat.leb threshold proba then "vulnerable" else "safe".

(** A pipeline that gives every sample the row [0.25, 0.75], and two
    worlds that have not loaded a model yet: one with that pipeline saved
    at the default path, one whose [ML_MODEL_PATH] names no file. *)
Definition demo_model : Model :=
  {| predict_proba := λ samples, (λ _, [0.25%float; 0.75%float]) <$> samples;
     predict := λ samples, (λ _, 1) <$> samples |}.

Definition cold_world : world :=
  {| _MODEL := None;
     ML_MODEL_PATH := None;
     files := {[ "/srv/models/code_vuln_model.joblib" := Pickled demo_model ]};
     DEFAULT_MODEL_PATH := "/srv/models/code_vuln_model.joblib" |}.

Definition misconfigured_world : world :=
  {| _MODEL := None;
     ML_MODEL_PATH := Some "/tmp/absent.joblib";
     files := {[ "/srv/models/code_vuln_model.joblib" := Pickled demo_model ]};
     DEFAULT_MODEL_PATH := "/srv/models/code_vuln_model.joblib" |}.

(** ** Several callers *)

(** What is left for a caller to do, in statements. *)
Definition remaining (p : pc) : nat :=
  match p with
  | AtEnter => 7
  | AtTest => 6
  | AtPath => 5
  | AtLoad _ => 4
  | AtStore _ => 3
  | AtExit _ => 2
  | AtReturn => 1
  | Returned _ | Raised _ => 0
  end.

(** One caller on its own. *)
Definition solo (g : world) (h : option nat) (n : nat) (p : pc) : config :=
  {| globals := g; holder := h; loads := n; callers := [p] |}.



End Spec.

(** ** The webhook's loop *)

Module AppSpec.
Import StaticAnalysis MlModel HybridDetector App Spec.

(** The report of one changed file, given the probability the model gave
    its content. *)
Definition report_of (f : FileInfo) (p : float) : AnalysisResult :=
  {| file_path := filename f;
     static_findings := analyze_code_static (content f);
     ml_result := score_dict (label_of default_threshold p) p;
     severity :=
       match analyze_code_static (content f),
             PrimFloat.leb default_threshold p with
       | _ :: _, true => "HIGHty"
       | [], true | _ :: _, false => "MEDIUM"
       | [], false => "SAFEtt"
       end |}.

(** Two changed files: one that evaluates its input, one that matches no
    rule. *)
Definition two_files : list FileInfo :=
  [ {| filename := "a.py"; content := "x = eval(y)"; status := "modified" |};
    {| filename := "b.py"; content := "x = 1"; status := "added" |} ].

(** A pipeline whose [predict_proba] gives no row for a sample that holds
    nothing, and the row [0.25, 0.75] otherwise. *)
Definition picky_model : Model :=
  {| predict_proba := λ samples,
       match samples with
       | [EmptyString] => []
       | _ => (λ _, [0.25%float; 0.75%float]) <$> samples
       end;
     predict := λ samples, (λ _, 1) <$> samples |}.

Definition picky_world : world :=
  {| _MODEL := Some picky_model; ML_MODEL_PATH := None; files := ∅;
     DEFAULT_MODEL_PATH := "/srv/models/code_vuln_model.joblib" |}.

End AppSpec.

(** ** Findings, lines and patterns *)

Module StaticSpec.
Import StaticAnalysis.

(** A finding moved down by [k] lines. *)
Definition shift (k : nat) (f : Finding) : Finding :=
  {| rule := rule f; line := k + line f; snippet := snippet f;
     pattern := pattern f |}.

End StaticSpec.

Module TextSpec.
(** Does every character of [s] satisfy [P]? *)
Fixpoint all_chars (P : ascii → bool) (s : string) : bool :=
  match s with
  | EmptyString => true
  | String c s' => P c && all_chars P s'
  end.

(** A string that holds no line-break character. *)
Definition one_line (s : string) : Prop :=
  all_chars (λ c, negb (Str.is_linebreak c)) s = true.
End TextSpec.

Module CaseSpec.
Import Re.
(** [s.lower()] on the strings of the embedding: below U+0100
    [str.lower] works character by character and stays below U+0100.
    (Beyond, it does not: the lower-case form of U+0130 has two
    characters.) *)
Fixpoint lower (s : string) : string :=
  match s with
  | EmptyString => EmptyString
  | String c s' => String (Str.tolower c) (lower s')
  end.

(** [s.isascii()] *)
Definition ascii_only (s : string) : bool :=
  TextSpec.all_chars (λ c, (Str.ord c <? 128)%N) s.

(** Patterns built only from [.], [\s] and literals under IGNORECASE. *)
Fixpoint case_blind_cset (cs : cset) : bool :=
  match cs with
  | Dot | Space | LitI _ => true
  | Union a b => case_blind_cset a && case_blind_cset b
  | Lit _ | Range _ _ => false
  end.

Fixpoint case_blind (r : regex) : bool :=
  match r with
  | Eps => true
  | Chr cs => case_blind_cset cs
  | WordBoundary => false
  | Cat r1 r2 | Alt r1 r2 => case_blind r1 && case_blind r2
  | Star r' => case_blind r'
  end.
End CaseSpec.

Module CallSpec.
Import Re.

(** [ln] holds [name] directly followed by an opening parenthesis, at the
    start of the line or after a character that is not a word
    character. *)
Definition call_site (name : string) (ln : string) : Prop :=
  ∃ pre post : list ascii,
    String.list_ascii_of_string ln
    = pre ++ String.list_ascii_of_string (name +:+ "(") ++ post
    ∧ match last pre with
      | Some c => Str.isword c = false
      | None => True
      end.

(** The two patterns of the eval group are [\b], a name, [\(]. *)
Definition call_pattern (name : string) : regex :=
  Cat WordBoundary (Cat (word Lit name) (Chr (Lit "("))).

End CallSpec.

(** ** The lock *)

Module ConcurrentSpec.
Import MlModel Concurrent.

(** The two worlds differ in [_MODEL] at most. *)
Definition same_settings (w w' : world) : Prop :=
  ML_MODEL_PATH w' = ML_MODEL_PATH w
  ∧ files w' = files w
  ∧ DEFAULT_MODEL_PATH w' = DEFAULT_MODEL_PATH w.

(** The lock is held by the callers inside the block, and by nobody
    else. *)
Definition lock_inv (c : config) : Prop :=
  (∀ i p, callers c !! i = Some p → in_block p = true → holder c = Some i)
  ∧ (∀ i, holder c = Some i →
          ∃ p, callers c !! i = Some p ∧ in_block p = true).

(** Where a caller can be when no model is loaded and the configured path
    names no file: on its way to the test of the path, or leaving with
    the exception [e]. *)
Definition missing_pc (e : exn) (p : pc) : Prop :=
  match p with
  | AtEnter | AtTest | AtPath => True
  | AtExit (Some e') | Raised e' => e' = e
  | _ => False
  end.

(** Where a caller can be when the model [m] was loaded before it
    started. *)
Definition warm_pc (m : Model) (p : pc) : Prop :=
  match p with
  | AtEnter | AtTest | AtExit None | AtReturn => True
  | Returned r => r = Some m
  | _ => False
  end.


(** The turns of [schedule] that are not lost: the statements [run]
    executes. *)
Fixpoint effective (schedule : list nat) (c : config) : nat :=
  match schedule with
  | [] => 0
  | i :: schedule' =>
      match thread_step i c with
      | Some c' => S (effective schedule' c')
      | None => effective schedule' c
      end
  end.

End ConcurrentSpec.

(** * Properties *)

(** ** The pattern matcher *)

Module ReFacts.
Import Re Spec.

Section Subject.
Variable subject : list ascii.

Lemma elem_of_flat_map {A B} (f : A → list B) (l : list A) (y : B) :
  y ∈ flat_map f l ↔ ∃ x, x ∈ l ∧ y ∈ f x.
Proof.
  rewrite list_elem_of_In, in_flat_map.
  by setoid_rewrite list_elem_of_In.
Qed.

(** A match moves forward and stays inside the subject. *)
Lemma matches_bounds r i j :
  matches subject r i j → i ≤ length subject → i ≤ j ≤ length subject.
Proof.
  induction 1 as [i|cs i c Hc _|i _|r1 r2 i j k _ IH1 _ IH2
                  |r1 r2 i j _ IH|r1 r2 i j _ IH|r i
                  |r i j k _ IH1 _ IH2]; intros Hi;
    try apply lookup_lt_Some in Hc;
    try specialize (IH1 Hi); try specialize (IH2 ltac:(lia));
    try specialize (IH Hi); lia.
Qed.

Section Star.
Variable r : regex.
Variable step : nat → list nat.
Hypothesis step_spec :
  ∀ i j, i ≤ length subject → j ∈ step i ↔ matches subject r i j.

Lemma star_from_sound fuel i k :
  i ≤ length subject →
  k ∈ star_from step fuel i → matches subject (Star r) i k.
Proof.
  revert i. induction fuel as [|fuel IH]; intros i Hi; simpl.
  - intros ->%list_elem_of_singleton. constructor.
  - intros [->|Hk]%elem_of_cons; [constructor|].
    apply elem_of_remove_dups, elem_of_flat_map in Hk as (j & Hj & Hk).
    apply list_elem_of_filter in Hj as [_ Hj].
    apply step_spec in Hj; [|done].
    pose proof (matches_bounds _ _ _ Hj Hi).
    eapply matches_star_more; [done | apply IH; [lia|done]].
Qed.

Lemma star_from_complete i k :
  matches subject (Star r) i k →
  ∀ fuel, i ≤ length subject → length subject - i ≤ fuel →
          k ∈ star_from step fuel i.
Proof.
  intros Hm. remember (Star r) as sr eqn:Hsr.
  induction Hm as [| | | | | |r' i|r' i j k Hr _ Hstar IH]; try done.
  - intros [|fuel] _ _; simpl; apply list_elem_of_here.
  - injection Hsr as ->. intros fuel Hi Hfuel.
    pose proof (matches_bounds _ _ _ Hr Hi) as Hj.
    destruct (decide (j = i)) as [->|Hne]; [by apply IH|].
    destruct fuel as [|fuel]; [lia|]. simpl. right.
    apply elem_of_remove_dups, elem_of_flat_map. exists j. split.
    + apply list_elem_of_filter. split; [lia | by apply step_spec].
    + apply IH; [done | lia | lia].
Qed.
End Star.

(** [ends] lists exactly the positions at which a match that starts at
    [i] can end. *)
Lemma ends_matches r i j :
  i ≤ length subject →
  j ∈ ends subject r i ↔ matches subject r i j.
Proof.
  revert i j. induction r as [|cs| |r1 IH1 r2 IH2|r1 IH1 r2 IH2|r IH];
    intros i j Hi; simpl.
  - rewrite list_elem_of_singleton. split; [intros ->; constructor|by inversion 1].
  - destruct (subject !! i) as [c|] eqn:Hc.
    + destruct (cset_mem cs c) eqn:Hmem.
      * rewrite list_elem_of_singleton. split.
        -- intros ->. by econstructor.
        -- by inversion 1.
      * split; [by intros ?%elem_of_nil|]. inversion 1; congruence.
    + split; [by intros ?%elem_of_nil|]. inversion 1; congruence.
  - destruct (at_boundary subject i) eqn:Hb.
    + rewrite list_elem_of_singleton. split.
      * intros ->. by constructor.
      * by inversion 1.
    + split; [by intros ?%elem_of_nil|]. inversion 1; congruence.
  - rewrite elem_of_remove_dups, elem_of_flat_map. split.
    + intros (k & Hk & Hj). apply IH1 in Hk; [|done].
      pose proof (matches_bounds _ _ _ Hk Hi).
      apply IH2 in Hj; [|lia]. by econstructor.
    + inversion 1 as [| | |? ? ? k ? Hk Hj| | | |]; subst.
      pose proof (matches_bounds _ _ _ Hk Hi).
      exists k. split; [by apply IH1 | apply IH2; [lia|done]].
  - rewrite elem_of_remove_dups, elem_of_app, IH1, IH2 by done. split.
    + intros [?|?]; [by apply matches_alt_l | by apply matches_alt_r].
    + inversion 1; auto.
  - split.
    + by apply (star_from_sound r (ends subject r) IH).
    + intros Hm. by apply (star_from_complete r (ends subject r) IH).
Qed.

(** [search_re] finds a match exactly when there is one somewhere in the
    subject. *)
Lemma search_re_matches r :
  search_re subject r = true ↔
  ∃ i j, i ≤ length subject ∧ matches subject r i j.
Proof.
  unfold search_re. rewrite existsb_exists. split.
  - intros (i & Hi & Hends). apply in_seq in Hi.
    destruct (ends subject r i) as [|j js] eqn:He; [done|].
    exists i, j. split; [lia|].
    apply ends_matches; [lia|]. rewrite He. apply list_elem_of_here.
  - intros (i & j & Hi & Hm). exists i. split; [apply in_seq; lia|].
    apply ends_matches in Hm; [|done].
    destruct (ends subject r i); [by apply elem_of_nil in Hm | done].
Qed.
End Subject.

(** [p.search(line)] is true exactly when the pattern matches somewhere in
    the line. *)
Lemma search_matches (p : Pattern) (ln : string) :
  search p ln = true ↔
  ∃ i j, i ≤ String.length ln
         ∧ matches (String.list_ascii_of_string ln) (compiled p) i j.
Proof.
  unfold search. rewrite search_re_matches.
  replace (length (String.list_ascii_of_string ln)) with (String.length ln);
    [done|].
  induction ln as [|c ln IH]; simpl; [done | by rewrite IH].
Qed.

End ReFacts.

(** ** The severity resolver *)

Module SeverityFacts.
Import MlModel HybridDetector Spec.

Lemma score_dict_probability label proba :
  score_dict label proba !! "probability" = Some (VFloat proba).
Proof. unfold score_dict. by simplify_map_eq. Qed.

Lemma score_dict_label label proba :
  score_dict label proba !! "label" = Some (VStr label).
Proof. unfold score_dict. by simplify_map_eq. Qed.

Lemma has_static_nonempty {F} (fs : list F) :
  bool_decide (0 < length fs) = match fs with [] => false | _ => true end.
Proof. by destruct fs. Qed.

(** The decision table, on a dict that holds a float probability. *)
Lemma compute_severity_table {F} (fs : list F) (d : gmap string pyval) p t :
  d !! "probability" = Some (VFloat p) →
  compute_severity fs d t =
    Return (let has_static := match fs with [] => false | _ => true end in
            let ml_flag :=
              PrimFloat.leb t p
              || py_eq_str (dict_get d "label" VNone) "vulnerable" in
            if has_static && ml_flag then "HIGHty"
            else if has_static || ml_flag then "MEDIUM"
            else "SAFEtt").
Proof.
  intros Hp. unfold compute_severity, dict_get.
  rewrite Hp, has_static_nonempty. simpl.
  by destruct fs, (PrimFloat.leb t p),
    (py_eq_str (default VNone (d !! "label")) "vulnerable").
Qed.

Lemma compute_severity_literals {F} (fs : list F) (d : gmap string pyval) t s :
  compute_severity fs d t = Return s →
  s = "HIGHty" ∨ s = "MEDIUM" ∨ s = "SAFEtt".
Proof.
  unfold compute_severity.
  destruct (py_ge _ _) as [above|]; simpl; [|done].
  repeat case_match; intros [= <-]; auto.
Qed.

Lemma label_eqb_vulnerable label proba :
  py_eq_str (dict_get (score_dict label proba) "label" VNone) "vulnerable"
  = String.eqb label "vulnerable".
Proof. unfold dict_get. by rewrite score_dict_label. Qed.

(** C1. With a finding and a probability at the default threshold, the
    resolver returns the string [HIGHty]; no input makes it return
    [HIGH]. *)
Theorem compute_severity_both_flags :
  compute_severity
    [ {| StaticAnalysis.rule := "UNSAFE_EVAL"; StaticAnalysis.line := 1;
         StaticAnalysis.snippet := "x = eval(y)";
         StaticAnalysis.pattern := "\beval\(" |} ]
    (score_dict "vulnerable" 0.75%float) default_threshold = Return "HIGHty"
  ∧ ∀ (F : Type) (fs : list F) d t, compute_severity fs d t ≠ Return "HIGH".
Proof.
  split; [by vm_compute|].
  intros F fs d t H. apply compute_severity_literals in H.
  by destruct H as [|[|]].
Qed.

(** C2. With no finding, a probability below the default threshold and the
    label [safe], the resolver returns the string [SAFEtt]; no input makes
    it return [SAFE]. *)
Theorem compute_severity_no_flag :
  compute_severity (@nil StaticAnalysis.Finding)
    (score_dict "safe" 0.25%float) default_threshold = Return "SAFEtt"
  ∧ ∀ (F : Type) (fs : list F) d t, compute_severity fs d t ≠ Return "SAFE".
Proof.
  split; [by vm_compute|].
  intros F fs d t H. apply compute_severity_literals in H.
  by destruct H as [|[|]].
Qed.

(** C3. When exactly one of the two flags is raised (findings non-empty;
    probability at or above the threshold, or label [vulnerable]) the
    resolver returns [MEDIUM]; in particular with no finding, a probability
    below the threshold and the label [vulnerable]. *)
Theorem compute_severity_one_flag :
  (∀ (F : Type) (fs : list F) label p t,
     (fs ≠ [] ∧ PrimFloat.leb t p = false ∧ label ≠ "vulnerable")
     ∨ (fs = [] ∧ (PrimFloat.leb t p = true ∨ label = "vulnerable")) →
     compute_severity fs (score_dict label p) t = Return "MEDIUM")
  ∧ (∀ p t,
       PrimFloat.leb t p = false →
       compute_severity (@nil StaticAnalysis.Finding)
         (score_dict "vulnerable" p) t = Return "MEDIUM").
Proof.
  assert (∀ (F : Type) (fs : list F) label p t,
     (fs ≠ [] ∧ PrimFloat.leb t p = false ∧ label ≠ "vulnerable")
     ∨ (fs = [] ∧ (PrimFloat.leb t p = true ∨ label = "vulnerable")) →
     compute_severity fs (score_dict label p) t = Return "MEDIUM") as Hone.
  { intros F fs label p t H.
    rewrite (compute_severity_table fs _ p t (score_dict_probability _ _)).
    rewrite label_eqb_vulnerable. cbv zeta.
    destruct H as [(Hfs & Hp & Hl) | (-> & [Hp | ->])].
    - rewrite Hp. apply String.eqb_neq in Hl. rewrite Hl.
      by destruct fs.
    - by rewrite Hp.
    - by rewrite orb_true_r. }
  split; [exact Hone|].
  intros p t Hp. apply Hone. right. auto.
Qed.

Lemma compute_severity_one_flag_witness :
  compute_severity [("SQL_INJECTION", 2); ("UNSAFE_EVAL", 7)]
    (score_dict "safe" 0.25%float) 0.5%float = Return "MEDIUM"
  ∧ compute_severity (@nil (string * nat))
      (score_dict "safe" 0.75%float) 0.5%float = Return "MEDIUM"
  ∧ compute_severity (@nil StaticAnalysis.Finding)
      (score_dict "vulnerable" 0.25%float) 0.5%float = Return "MEDIUM".
Proof.
  split; [|split].
  - apply (proj1 compute_severity_one_flag). left.
    split; [done|]. split; [by vm_compute | done].
  - apply (proj1 compute_severity_one_flag). right.
    split; [done|]. left. by vm_compute.
  - apply (proj2 compute_severity_one_flag). by vm_compute.
Defined.

(** C8. The severity depends on the findings only through their being
    empty or not, and on the score dict only through its [probability]
    and [label] entries. *)
Theorem compute_severity_pure
    (F1 F2 : Type) (fs1 : list F1) (fs2 : list F2)
    (d1 d2 : gmap string pyval) (t : float) :
  (fs1 = [] ↔ fs2 = []) →
  d1 !! "probability" = d2 !! "probability" →
  d1 !! "label" = d2 !! "label" →
  compute_severity fs1 d1 t = compute_severity fs2 d2 t.
Proof.
  intros Hfs Hp Hl. unfold compute_severity, dict_get.
  rewrite Hp, Hl, !has_static_nonempty.
  destruct fs1, fs2; try done.
  - discriminate (proj1 Hfs eq_refl).
  - discriminate (proj2 Hfs eq_refl).
Qed.

Lemma compute_severity_pure_witness :
  compute_severity [("SQL_INJECTION", 2); ("UNSAFE_EVAL", 7)]
    (score_dict "safe" 0.75%float) 0.5%float
  = compute_severity ["x"]
      (<["file_path" := VStr "a.py"]> (score_dict "safe" 0.75%float))
      0.5%float.
Proof.
  apply compute_severity_pure; [split; discriminate | done | done].
Defined.

End SeverityFacts.

(** ** The scorer and the orchestrator *)

Module ScorerFacts.
Import StaticAnalysis MlModel HybridDetector Spec SeverityFacts.

Ltac run_py :=
  unfold load_model, predict_vulnerability, analyze_file, mbind, py_bind,
    mret, py_ret, mthrow, py_throw, pure, get_MODEL, getenv_model_path,
    path_exists, joblib_load; simpl.

Lemma load_model_cached w m :
  _MODEL w = Some m → load_model w = (Return (Some m), w).
Proof. intros H. run_py. rewrite H. simpl. by rewrite H. Qed.

Lemma load_model_missing w :
  _MODEL w = None → files w !! configured_path w = None →
  load_model w =
    (Raise (FileNotFoundError (not_found_message (configured_path w))), w).
Proof.
  intros H Hf. run_py. rewrite H.
  by rewrite bool_decide_eq_false_2 by (rewrite Hf; by intros [? ?]).
Qed.

Lemma load_model_fresh w m :
  _MODEL w = None → files w !! configured_path w = Some (Pickled m) →
  load_model w = (Return (Some m), install m w).
Proof.
  intros H Hf. run_py. rewrite H.
  rewrite bool_decide_eq_true_2 by (rewrite Hf; eauto).
  simpl. by rewrite Hf.
Qed.

(** What [load_model] returns is never [None]. *)
Lemma load_model_returns w r w' :
  load_model w = (Return r, w') → ∃ m, r = Some m ∧ _MODEL w' = Some m.
Proof.
  run_py. destruct (_MODEL w) as [m|] eqn:H.
  - intros [= <- <-]. eauto.
  - destruct (files w !! configured_path w) as [[m|]|] eqn:Hf.
    + rewrite bool_decide_eq_true_2 by eauto. simpl. rewrite Hf.
      intros [= <- <-]. eauto.
    + rewrite bool_decide_eq_true_2 by eauto. simpl. by rewrite Hf.
    + by rewrite bool_decide_eq_false_2 by (by intros [? ?]).
Qed.

(** The scorer, run after the model: its three ways out. *)
Lemma predict_vulnerability_run code t w :
  predict_vulnerability code t w =
    match load_model w with
    | (Return (Some m), w') =>
        match predict_proba m [code] !! 0 with
        | Some row =>
            match row !! 1 with
            | Some p => (Return (score_dict (label_of t p) p), w')
            | None => (Raise IndexError, w')
            end
        | None => (Raise IndexError, w')
        end
    | (Return None, w') => (Raise AttributeError, w')
    | (Raise e, w') => (Raise e, w')
    end.
Proof.
  unfold predict_vulnerability, mbind at 1, py_bind.
  destruct (load_model w) as [[[m|]|e] w']; try done.
  unfold mbind, py_bind, pure, py_index, outcome_bind.
  destruct (predict_proba m [code] !! 0) as [row|]; [|done].
  by destruct (row !! 1).
Qed.

(** A returned score is the dict built from a probability and the label
    derived from it. *)
Lemma predict_vulnerability_returns code t w d w' :
  predict_vulnerability code t w = (Return d, w') →
  ∃ p, d = score_dict (label_of t p) p.
Proof.
  rewrite predict_vulnerability_run.
  destruct (load_model w) as [[[m|]|e] w1]; try done.
  destruct (predict_proba m [code] !! 0) as [row|]; [|done].
  destruct (row !! 1) as [p|]; [|done].
  intros [= <- <-]. by exists p.
Qed.

(** C4. The label of a returned score is [vulnerable] exactly when the
    returned probability is at or above the threshold, and [safe]
    otherwise; a score is returned whenever the model is there and gives a
    row with a second entry; and the model's own [predict] plays no
    part. *)
Theorem predict_vulnerability_label (code : string) (t : float) (w : world) :
  (∀ d w', predict_vulnerability code t w = (Return d, w') →
     ∃ p, d = score_dict (label_of t p) p
          ∧ d !! "probability" = Some (VFloat p)
          ∧ d !! "label" =
              Some (VStr (if PrimFloat.leb t p then "vulnerable" else "safe")))
  ∧ (∀ m w' row p,
       load_model w = (Return (Some m), w') →
       predict_proba m [code] !! 0 = Some row → row !! 1 = Some p →
       predict_vulnerability code t w
       = (Return (score_dict
                    (if PrimFloat.leb t p then "vulnerable" else "safe") p), w'))
  ∧ (∀ m m',
       _MODEL w = Some m → predict_proba m' = predict_proba m →
       (predict_vulnerability code t (install m' w)).1
       = (predict_vulnerability code t w).1).
Proof.
  split; [|split].
  - intros d w' Hrun.
    destruct (predict_vulnerability_returns code t w d w' Hrun) as [p ->].
    exists p. split; [done|].
    by rewrite score_dict_probability, score_dict_label.
  - intros m w' row p Hl Hrow Hp.
    by rewrite predict_vulnerability_run, Hl, Hrow, Hp.
  - intros m m' Hm Hpp.
    rewrite !predict_vulnerability_run.
    rewrite (load_model_cached w m Hm).
    rewrite (load_model_cached (install m' w) m') by done.
    rewrite Hpp.
    destruct (predict_proba m [code] !! 0) as [row|]; [|done].
    by destruct (row !! 1).
Qed.

Lemma predict_vulnerability_label_witness :
  predict_vulnerability "x = eval(y)" 0.5%float cold_world
  = (Return (score_dict "vulnerable" 0.75%float), install demo_model cold_world)
  ∧ predict_vulnerability "x = eval(y)" 1%float cold_world
    = (Return (score_dict "safe" 0.75%float), install demo_model cold_world).
Proof.
  split.
  - apply (proj1 (proj2 (predict_vulnerability_label
             "x = eval(y)" 0.5%float cold_world))
             demo_model _ [0.25%float; 0.75%float] 0.75%float);
      reflexivity.
  - apply (proj1 (proj2 (predict_vulnerability_label
             "x = eval(y)" 1%float cold_world))
             demo_model _ [0.25%float; 0.75%float] 0.75%float);
      reflexivity.
Defined.

(** C7. When no model is loaded and the configured path names no file,
    [load_model] raises [FileNotFoundError], and the scorer and the
    orchestrator raise that same exception; and a call of the orchestrator
    either returns a report whose findings, score and severity are the
    three sub-results, or raises exactly what the scorer raised. *)
Theorem analyze_file_fail_fast (path code : string) (w : world) :
  (_MODEL w = None → files w !! configured_path w = None →
     let e := FileNotFoundError (not_found_message (configured_path w)) in
     load_model w = (Raise e, w)
     ∧ predict_vulnerability code default_threshold w = (Raise e, w)
     ∧ analyze_file path code w = (Raise e, w))
  ∧ match analyze_file path code w with
    | (Return r, w') =>
        file_path r = path
        ∧ static_findings r = analyze_code_static code
        ∧ predict_vulnerability code default_threshold w
          = (Return (ml_result r), w')
        ∧ compute_severity (static_findings r) (ml_result r) default_threshold
          = Return (severity r)
    | (Raise e, w') =>
        predict_vulnerability code default_threshold w = (Raise e, w')
    end.
Proof.
  split.
  - intros Hm Hf e.
    pose proof (load_model_missing w Hm Hf) as Hl. fold e in Hl.
    assert (predict_vulnerability code default_threshold w = (Raise e, w))
      as Hp by (by rewrite predict_vulnerability_run, Hl).
    split; [done|]. split; [done|].
    unfold analyze_file, mbind at 1, py_bind. by rewrite Hp.
  - unfold analyze_file, mbind at 1, py_bind.
    destruct (predict_vulnerability code default_threshold w)
      as [[d|e] w'] eqn:Hp; [|done].
    destruct (predict_vulnerability_returns _ _ _ _ _ Hp) as [p ->].
    pose proof (compute_severity_table (analyze_code_static code) _ p
                  default_threshold
                  (score_dict_probability (label_of default_threshold p) p))
      as Hs.
    unfold mbind, py_bind, pure, mret, py_ret. rewrite Hs.
    repeat split. exact Hs.
Qed.

Lemma analyze_file_fail_fast_witness :
  let e := FileNotFoundError
    "ML model not found at /tmp/absent.joblib. Run train_model.py first to train and save the model." in
  load_model misconfigured_world = (Raise e, misconfigured_world)
  ∧ predict_vulnerability "x = eval(y)" default_threshold misconfigured_world
    = (Raise e, misconfigured_world)
  ∧ analyze_file "a.py" "x = eval(y)" misconfigured_world
    = (Raise e, misconfigured_world).
Proof.
  exact (proj1 (analyze_file_fail_fast "a.py" "x = eval(y)" misconfigured_world)
           eq_refl eq_refl).
Defined.

End ScorerFacts.

(** ** The rule matcher *)

Module StaticFacts.
Import Re StaticAnalysis Spec.

Lemma elem_of_enumerate {A} (l : list A) (start idx : nat) (x : A) :
  (idx, x) ∈ enumerate l start ↔ start ≤ idx ∧ l !! (idx - start) = Some x.
Proof.
  revert start. induction l as [|y l IH]; intros start; simpl.
  - split; [by intros ?%elem_of_nil | by intros [_ ?]].
  - rewrite elem_of_cons, IH. split.
    + intros [[= -> ->] | [Hle Hx]].
      * split; [lia|]. by rewrite Nat.sub_diag.
      * split; [lia|]. by replace (idx - start) with (S (idx - S start)) by lia.
    + intros [Hle Hx]. destruct (decide (idx = start)) as [->|Hne].
      * left. rewrite Nat.sub_diag in Hx. by injection Hx as ->.
      * right. split; [lia|].
        by replace (idx - start) with (S (idx - S start)) in Hx by lia.
Qed.

Lemma NoDup_fmap_elem_inj {A B} (f : A → B) (l : list A) (x y : A) :
  NoDup (f <$> l) → x ∈ l → y ∈ l → f x = f y → x = y.
Proof.
  induction l as [|a l IH]; csimpl; [by intros _ ?%elem_of_nil|].
  intros [Ha Hl]%NoDup_cons [->|Hx]%elem_of_cons [->|Hy]%elem_of_cons Heq.
  - done.
  - destruct Ha. rewrite Heq. by apply list_elem_of_fmap_2.
  - destruct Ha. rewrite <- Heq. by apply list_elem_of_fmap_2.
  - by apply IH.
Qed.

Section Scan.
Variable rule_name : string.
Variable patterns : list Pattern.

Let on_line (idx : nat) (ln : string) : list Finding :=
  pat ← filter (λ pat, search pat ln = true) patterns;
  [finding_of rule_name idx ln pat].

(** The inner loop appends the findings of the line. *)
Lemma inner_loop idx ln (pats : list Pattern) (acc : list Finding) :
  fold_left
    (λ findings pat,
       if search pat ln
       then findings ++ [ {| rule := rule_name; line := idx;
                             snippet := Str.strip ln;
                             pattern := Re.pattern pat |} ]
       else findings) pats acc
  = acc ++ (pat ← filter (λ pat, search pat ln = true) pats;
            [finding_of rule_name idx ln pat]).
Proof.
  revert acc. induction pats as [|pat pats IH]; intros acc; simpl.
  - by rewrite app_nil_r.
  - rewrite IH, filter_cons.
    destruct (search pat ln) eqn:Hs.
    + rewrite decide_True by done. csimpl. by rewrite <- app_assoc.
    + by rewrite decide_False by done.
Qed.

(** The outer loop appends the findings of each line in turn. *)
Lemma outer_loop (lines : list string) (start : nat) (acc : list Finding) :
  fold_left
    (λ findings '(idx, ln),
       fold_left
         (λ findings pat,
            if search pat ln
            then findings ++ [ {| rule := rule_name; line := idx;
                                  snippet := Str.strip ln;
                                  pattern := Re.pattern pat |} ]
            else findings) patterns findings)
    (enumerate lines start) acc
  = acc ++ ('(idx, ln) ← enumerate lines start; on_line idx ln).
Proof.
  revert start acc.
  induction lines as [|ln lines IH]; intros start acc; simpl.
  - by rewrite app_nil_r.
  - rewrite inner_loop, IH. csimpl. by rewrite <- app_assoc.
Qed.

Lemma scan_patterns_group (lines : list string) :
  _scan_patterns lines patterns rule_name
  = group_findings lines patterns rule_name.
Proof. unfold _scan_patterns. by rewrite outer_loop. Qed.

(** A finding of the group is a line of the text together with a pattern
    of the group that matches it. *)
Lemma elem_of_group_findings (lines : list string) (f : Finding) :
  f ∈ group_findings lines patterns rule_name ↔
  ∃ idx ln pat,
    1 ≤ idx ∧ lines !! (idx - 1) = Some ln ∧ pat ∈ patterns
    ∧ search pat ln = true ∧ f = finding_of rule_name idx ln pat.
Proof.
  unfold group_findings. rewrite list_elem_of_bind. split.
  - intros ([idx ln] & Hf & Hin).
    apply list_elem_of_bind in Hf as (pat & Hf & Hpat).
    apply list_elem_of_filter in Hpat as [Hs Hpat].
    apply list_elem_of_singleton in Hf.
    apply elem_of_enumerate in Hin as [Hle Hln].
    by exists idx, ln, pat.
  - intros (idx & ln & pat & Hle & Hln & Hpat & Hs & ->).
    exists (idx, ln). split; [|by apply elem_of_enumerate].
    apply list_elem_of_bind. exists pat.
    split; [by apply list_elem_of_singleton|].
    by apply list_elem_of_filter.
Qed.

(** Line numbers never decrease along the findings of a group. *)
Lemma group_lines_sorted (lines : list string) (start : nat) :
  let g := '(idx, ln) ← enumerate lines start; on_line idx ln in
  StronglySorted le (line <$> g) ∧ Forall (λ f, start ≤ line f) g.
Proof.
  revert start. induction lines as [|ln lines IH]; intros start; csimpl.
  - split; constructor.
  - destruct (IH (S start)) as [Hsorted Hge].
    assert (Forall (λ f, line f = start) (on_line start ln)) as Hhere.
    { apply Forall_forall. intros f Hf.
      apply list_elem_of_bind in Hf as (pat & Hf & _).
      by apply list_elem_of_singleton in Hf as ->. }
    split.
    + rewrite fmap_app. apply StronglySorted_app_2; [| |done].
      * intros n1 n2 Hn1 Hn2.
        apply list_elem_of_fmap in Hn1 as (f1 & -> & Hf1).
        apply list_elem_of_fmap in Hn2 as (f2 & -> & Hf2).
        rewrite Forall_forall in Hhere, Hge.
        rewrite (Hhere f1 Hf1). specialize (Hge f2 Hf2). simpl in Hge. lia.
      * induction (on_line start ln) as [|f fs IHfs]; csimpl; [constructor|].
        inversion Hhere as [|?? Hf Hfs]; subst.
        constructor; [by apply IHfs|].
        apply Forall_fmap, (Forall_impl _ _ _ Hfs). intros f' Hf'.
        simpl. lia.
    + apply Forall_app. split.
      * apply (Forall_impl _ _ _ Hhere). intros f Hf. lia.
      * apply (Forall_impl _ _ _ Hge). intros f Hf. simpl in Hf. lia.
Qed.

Lemma group_findings_sorted (lines : list string) :
  StronglySorted le (line <$> group_findings lines patterns rule_name).
Proof. apply (group_lines_sorted lines 1). Qed.

Lemma group_findings_rule (lines : list string) :
  Forall (λ f, rule f = rule_name) (group_findings lines patterns rule_name).
Proof.
  apply Forall_forall. intros f Hf.
  by apply elem_of_group_findings in Hf as (idx & ln & pat & _ & _ & _ & _ & ->).
Qed.

(** No finding of a group is appended twice. *)
Lemma group_findings_NoDup (lines : list string) :
  NoDup (Re.pattern <$> patterns) →
  NoDup (group_findings lines patterns rule_name).
Proof.
  intros Hpats. apply NoDup_fmap_1 in Hpats as Hnd.
  unfold group_findings. apply NoDup_bind.
  - intros [i1 l1] [i2 l2] f H1 H2 Hf1 Hf2.
    apply elem_of_enumerate in H1 as [Hle1 Hl1].
    apply elem_of_enumerate in H2 as [Hle2 Hl2].
    apply list_elem_of_bind in Hf1 as (p1 & Hf1 & _).
    apply list_elem_of_bind in Hf2 as (p2 & Hf2 & _).
    apply list_elem_of_singleton in Hf1, Hf2. subst f.
    injection Hf2 as Hi _ _. subst i2. congruence.
  - intros [idx ln] _. apply NoDup_bind.
    + intros p1 p2 f [_ Hp1]%list_elem_of_filter [_ Hp2]%list_elem_of_filter
        ->%list_elem_of_singleton Hf%list_elem_of_singleton.
      apply (NoDup_fmap_elem_inj Re.pattern patterns); [done..|].
      by injection Hf.
    + intros pat _. apply NoDup_singleton.
    + by apply NoDup_filter.
  - clear. generalize 1. induction lines as [|ln lines IH]; intros start.
    + constructor.
    + simpl. constructor; [|apply IH].
      intros [Hle _]%elem_of_enumerate. lia.
Qed.
End Scan.

Lemma analyze_code_static_groups (code : string) :
  analyze_code_static code
  = '(rule_name, patterns) ← rule_groups;
    group_findings (Str.splitlines code) patterns rule_name.
Proof.
  unfold analyze_code_static. rewrite !scan_patterns_group. csimpl.
  by rewrite app_nil_r, <- app_assoc.
Qed.

Lemma quiet_matches_nothing (ln : string) :
  quiet ln = true → matches_nothing ln.
Proof.
  unfold quiet. rewrite forallb_forall.
  intros H rule_name patterns pat Hg Hpat.
  apply list_elem_of_In in Hg. specialize (H _ Hg). simpl in H.
  rewrite forallb_forall in H. apply list_elem_of_In in Hpat.
  by apply negb_true_iff, H.
Qed.

Lemma group_findings_cons_quiet ln lines patterns rule_name start :
  (∀ pat, pat ∈ patterns → search pat ln = false) →
  ('(idx, l) ← enumerate (ln :: lines) start;
   pat ← filter (λ pat, search pat l = true) patterns;
   [finding_of rule_name idx l pat])
  = '(idx, l) ← enumerate lines (S start);
    pat ← filter (λ pat, search pat l = true) patterns;
    [finding_of rule_name idx l pat].
Proof.
  intros Hq. csimpl.
  replace (filter (λ pat, search pat ln = true) patterns) with (@nil Pattern);
    [done|].
  symmetry. induction patterns as [|pat pats IH]; [done|].
  rewrite filter_cons_False.
  - apply IH. intros p Hp. apply Hq. by right.
  - rewrite Hq by left. done.
Qed.

(** The six patterns on lines that they match and on near misses, as
    CPython's [re] decides them. *)
Example patterns_on_matching_lines :
  hits "cur.execute('select * from users where id = ' + uid)"
    = [true; false; false; false; false; false]
  ∧ hits "q = 'DELETE FROM t WHERE id = %s' % uid"
    = [false; true; false; false; false; false]
  ∧ hits "q = f'update t set a = {a}'"
    = [false; true; false; false; false; false]
  ∧ hits "  API_KEY='k'"
    = [false; false; true; false; false; false]
  ∧ hits "key = AKIA0123456789ABCDEF"
    = [false; false; false; true; false; false]
  ∧ hits "y = my.eval(exec(z))"
    = [false; false; false; false; true; true].
Proof. by vm_compute. Qed.

Example patterns_on_near_misses :
  hits "select  from b + c" = [false; false; false; false; false; false]
  ∧ hits "SELECT a FROM b +" = [false; false; false; false; false; false]
  ∧ hits "pwd = ''" = [false; false; false; false; false; false]
  ∧ hits "token = 'abc" = [false; false; false; false; false; false]
  ∧ hits "key = akia0123456789ABCDEF" = [false; false; false; false; false; false]
  ∧ hits "key = AKIA0123456789ABCDE" = [false; false; false; false; false; false]
  ∧ hits "y = my_eval(z)" = [false; false; false; false; false; false]
  ∧ hits "y = EXEC(z)" = [false; false; false; false; false; false]
  ∧ hits "y = exec (z)" = [false; false; false; false; false; false].
Proof. by vm_compute. Qed.

(** C5. The findings are those of the SQL group, then of the credential
    group, then of the eval group; within a group line numbers never
    decrease and there is one finding for each pair of a line and a pattern
    of the group that matches it, none twice; and one line can give two
    findings of the same group. *)
Theorem analyze_code_static_order :
  (∀ code : string,
     let lines := Str.splitlines code in
     let sql := group_findings lines SQL_INJECTION_PATTERNS "SQL_INJECTION" in
     let cred :=
       group_findings lines HARDCODED_CREDENTIAL_PATTERNS "HARDCODED_CREDENTIAL" in
     let unsafe := group_findings lines UNSAFE_EVAL_PATTERNS "UNSAFE_EVAL" in
     analyze_code_static code = sql ++ cred ++ unsafe
     ∧ Forall (λ f, rule f = "SQL_INJECTION") sql
     ∧ Forall (λ f, rule f = "HARDCODED_CREDENTIAL") cred
     ∧ Forall (λ f, rule f = "UNSAFE_EVAL") unsafe
     ∧ StronglySorted le (line <$> sql)
     ∧ StronglySorted le (line <$> cred)
     ∧ StronglySorted le (line <$> unsafe)
     ∧ NoDup sql ∧ NoDup cred ∧ NoDup unsafe)
  ∧ analyze_code_static "x = eval(exec(y))"
    = [ {| rule := "UNSAFE_EVAL"; line := 1; snippet := "x = eval(exec(y))";
           pattern := "\beval\(" |};
        {| rule := "UNSAFE_EVAL"; line := 1; snippet := "x = eval(exec(y))";
           pattern := "\bexec\(" |} ].
Proof.
  split; [|by vm_compute].
  intros code lines sql cred unsafe.
  split.
  { rewrite analyze_code_static_groups. csimpl. by rewrite app_nil_r. }
  split_and!;
    try apply group_findings_rule;
    try apply group_findings_sorted;
    apply group_findings_NoDup, (bool_decide_unpack _); by vm_compute.
Qed.

(** C6. In a text of five lines whose third line is the credential
    assignment and whose other lines match no pattern, the one finding is
    the credential rule at line 3. *)
Theorem credential_line_numbering (code l1 l2 l4 l5 : string) :
  Str.splitlines code = [l1; l2; credential_line; l4; l5] →
  matches_nothing l1 → matches_nothing l2 →
  matches_nothing l4 → matches_nothing l5 →
  analyze_code_static code
  = [ {| rule := "HARDCODED_CREDENTIAL"; line := 3;
         snippet := credential_line; pattern := credential_pattern |} ].
Proof.
  intros Hlines H1 H2 H4 H5.
  assert (∀ rule_name patterns,
            (rule_name, patterns) ∈ rule_groups →
            group_findings (Str.splitlines code) patterns rule_name
            = pat ← filter (λ pat, search pat credential_line = true) patterns;
              [finding_of rule_name 3 credential_line pat]) as Hgroup.
  { intros rule_name patterns Hg. unfold group_findings. rewrite Hlines.
    rewrite !group_findings_cons_quiet by eauto.
    change (enumerate (credential_line :: [l4; l5]) 3)
      with ((3, credential_line) :: enumerate [l4; l5] 4).
    rewrite bind_cons, !group_findings_cons_quiet by eauto.
    csimpl. by rewrite app_nil_r. }
  rewrite analyze_code_static_groups. unfold rule_groups. csimpl.
  rewrite !Hgroup by (unfold rule_groups; set_solver).
  by vm_compute.
Qed.

Lemma credential_line_numbering_witness :
  analyze_code_static
    ("import os" +:+ String (ascii_of_N 10)
       ("" +:+ String (ascii_of_N 10)
          (credential_line +:+ String (ascii_of_N 10)
             ("    x = 1" +:+ String (ascii_of_N 10) "print(x)"))))
  = [ {| rule := "HARDCODED_CREDENTIAL"; line := 3;
         snippet := credential_line; pattern := credential_pattern |} ].
Proof.
  apply (credential_line_numbering _ "import os" "" "    x = 1" "print(x)");
    [reflexivity | apply quiet_matches_nothing; reflexivity ..].
Defined.

(** C9. A finding names a line of the text, carries that line trimmed, and
    carries the source of a pattern of its rule's group that matches that
    line. *)
Theorem finding_consistent (code : string) (f : Finding) :
  f ∈ analyze_code_static code →
  let lines := Str.splitlines code in
  1 ≤ line f ≤ length lines
  ∧ rule f ∈ ["SQL_INJECTION"; "HARDCODED_CREDENTIAL"; "UNSAFE_EVAL"]
  ∧ ∃ ln patterns pat,
      lines !! (line f - 1) = Some ln
      ∧ snippet f = Str.strip ln
      ∧ (rule f, patterns) ∈ rule_groups
      ∧ pat ∈ patterns
      ∧ pattern f = Re.pattern pat
      ∧ search pat ln = true.
Proof.
  intros Hf lines. rewrite analyze_code_static_groups in Hf.
  apply list_elem_of_bind in Hf as ([rule_name patterns] & Hf & Hg).
  apply elem_of_group_findings in Hf
    as (idx & ln & pat & Hle & Hln & Hpat & Hs & ->).
  simpl. split; [|split].
  - apply lookup_lt_Some in Hln. fold lines in Hln. lia.
  - exact (list_elem_of_fmap_2 fst _ _ Hg).
  - by exists ln, patterns, pat.
Qed.

Lemma finding_consistent_witness :
  let f := {| rule := "UNSAFE_EVAL"; line := 2; snippet := "y = exec(z)";
              pattern := "\bexec\(" |} in
  let lines := ["x = 1"; "  y = exec(z)"] in
  1 ≤ line f ≤ length lines
  ∧ rule f ∈ ["SQL_INJECTION"; "HARDCODED_CREDENTIAL"; "UNSAFE_EVAL"]
  ∧ ∃ ln patterns pat,
      lines !! (line f - 1) = Some ln
      ∧ snippet f = Str.strip ln
      ∧ (rule f, patterns) ∈ rule_groups
      ∧ pat ∈ patterns
      ∧ pattern f = Re.pattern pat
      ∧ search pat ln = true.
Proof.
  apply (finding_consistent
           ("x = 1" +:+ String (ascii_of_N 10) "  y = exec(z)")).
  vm_compute. apply list_elem_of_here.
Defined.

End StaticFacts.

(** ** Several callers of [load_model] *)

Module ConcurrentFacts.
Import MlModel Concurrent Spec ScorerFacts.

Lemma run_reachable (schedule : list nat) (c : config) :
  rtc step c (run schedule c).
Proof.
  revert c. induction schedule as [|i schedule IH]; intros c; simpl; [done|].
  destruct (thread_step i c) as [c'|] eqn:Hstep; simpl; [|apply IH].
  eapply rtc_l; [by exists i | apply IH].
Qed.

Section OneLoad.
(** The world the callers start in: no model loaded yet, and a readable
    artifact [m] at the configured path. *)
Variable w0 : world.
Variable m : Model.
Hypothesis cold : _MODEL w0 = None.
Hypothesis readable : files w0 !! configured_path w0 = Some (Pickled m).











End OneLoad.

Lemma step_length (c c' : config) :
  step c c' → length (callers c') = length (callers c).
Proof.
  intros [i Hstep]. unfold thread_step in Hstep.
  repeat case_match; try done; injection Hstep as <-; simpl;
    by rewrite length_insert.
Qed.

Lemma reachable_length (w : world) (n : nat) (c : config) :
  rtc step (start w n) c → length (callers c) = n.
Proof.
  revert c. apply rtc_ind_r; [apply length_replicate|].
  intros c c' _ Hstep <-. by apply step_length.
Qed.

(** Every statement brings its caller closer to the end, so no run goes
    on for ever. *)
Lemma sum_list_insert (l : list nat) (i x y : nat) :
  l !! i = Some x → sum_list (<[i := y]> l) + x = sum_list l + y.
Proof.
  revert i. induction l as [|z l IH]; intros [|i] Hi; simpl in *; try done.
  - injection Hi as ->. lia.
  - specialize (IH i Hi). lia.
Qed.

Lemma step_decreases (c c' : config) :
  step c c' →
  sum_list (remaining <$> callers c') < sum_list (remaining <$> callers c).
Proof.
  intros [i Hstep]. unfold thread_step in Hstep.
  destruct (callers c !! i) as [p|] eqn:Hi; [|done].
  assert (∀ next g h n,
            remaining next < remaining p →
            sum_list (remaining <$>
                        callers (move i next
                                   {| globals := g; holder := h; loads := n;
                                      callers := callers c |}))
            < sum_list (remaining <$> callers c)) as Hmove.
  { intros next g h n Hlt. simpl. rewrite list_fmap_insert.
    pose proof (sum_list_insert (remaining <$> callers c) i (remaining p)
                  (remaining next)) as Hsum.
    rewrite list_lookup_fmap, Hi in Hsum. specialize (Hsum eq_refl). lia. }
  destruct p as [| | |path|m'|[e|]| |r|e]; try done;
    repeat case_match; try done; injection Hstep as <-;
    apply Hmove; simpl; lia.
Qed.

Lemma run_turn (i : nat) (schedule : list nat) (c c' : config) :
  thread_step i c = Some c' → run (i :: schedule) c = run schedule c'.
Proof. intros H. simpl. by rewrite H. Qed.

Lemma run_finished (schedule : list nat) g h n p :
  finished p = true →
  run schedule (solo g h n p) = solo g h n p.
Proof.
  intros Hp. induction schedule as [|[|i] schedule IH]; simpl; [done| |done].
  by destruct p.
Qed.

Lemma solo_enter g n :
  thread_step 0 (solo g None n AtEnter) = Some (solo g (Some 0) n AtTest).
Proof. reflexivity. Qed.

Lemma solo_test_unset g h n :
  _MODEL g = None →
  thread_step 0 (solo g h n AtTest) = Some (solo g h n AtPath).
Proof. intros H. unfold thread_step. simpl. by rewrite H. Qed.

Lemma solo_test_set g h n m :
  _MODEL g = Some m →
  thread_step 0 (solo g h n AtTest) = Some (solo g h n (AtExit None)).
Proof. intros H. unfold thread_step. simpl. by rewrite H. Qed.

Lemma solo_path_found g h n f :
  files g !! configured_path g = Some f →
  thread_step 0 (solo g h n AtPath)
  = Some (solo g h n (AtLoad (configured_path g))).
Proof.
  intros H. unfold thread_step. simpl.
  by rewrite bool_decide_eq_true_2 by (rewrite H; eauto).
Qed.

Lemma solo_path_missing g h n :
  files g !! configured_path g = None →
  thread_step 0 (solo g h n AtPath)
  = Some (solo g h n (AtExit (Some (FileNotFoundError
                                      (not_found_message (configured_path g)))))).
Proof.
  intros H. unfold thread_step. simpl.
  by rewrite bool_decide_eq_false_2 by (rewrite H; by intros [? ?]).
Qed.

Lemma solo_load g h n path :
  thread_step 0 (solo g h n (AtLoad path))
  = Some (solo g h (S n)
            match files g !! path with
            | Some (Pickled m) => AtStore m
            | Some Garbage => AtExit (Some UnpicklingError)
            | None => AtExit (Some (FileNotFoundError path))
            end).
Proof.
  unfold thread_step, joblib_load. simpl.
  by destruct (files g !! path) as [[m|]|].
Qed.

Lemma solo_store g h n m :
  thread_step 0 (solo g h n (AtStore m))
  = Some (solo (install m g) h n (AtExit None)).
Proof. reflexivity. Qed.

Lemma solo_exit g h n pending :
  thread_step 0 (solo g h n (AtExit pending))
  = Some (solo g None n match pending with
                        | None => AtReturn
                        | Some e => Raised e
                        end).
Proof. by destruct pending. Qed.

Lemma solo_return g h n :
  thread_step 0 (solo g h n AtReturn)
  = Some (solo g h n (Returned (_MODEL g))).
Proof. reflexivity. Qed.

(** One caller, run alone, does what [load_model] does. *)
Lemma alone_is_load_model (w : world) :
  ∃ n,
    run (replicate 7 0) (start w 1)
    = solo (load_model w).2 None n
        match (load_model w).1 with
        | Return r => Returned r
        | Raise e => Raised e
        end.
Proof.
  change (start w 1) with (solo w None 0 AtEnter).
  change (replicate 7 0) with [0; 0; 0; 0; 0; 0; 0].
  rewrite (run_turn _ _ _ _ (solo_enter w 0)).
  destruct (_MODEL w) as [m|] eqn:Hm.
  - rewrite (load_model_cached w m Hm).
    rewrite (run_turn _ _ _ _ (solo_test_set w _ _ m Hm)).
    rewrite (run_turn _ _ _ _ (solo_exit w _ _ _)).
    rewrite (run_turn _ _ _ _ (solo_return w _ _)).
    rewrite run_finished by done. rewrite Hm. by exists 0.
  - rewrite (run_turn _ _ _ _ (solo_test_unset w _ _ Hm)).
    destruct (files w !! configured_path w) as [f|] eqn:Hf.
    + rewrite (run_turn _ _ _ _ (solo_path_found w _ _ f Hf)).
      rewrite (run_turn _ _ _ _ (solo_load w _ _ _)). rewrite Hf.
      destruct f as [m|].
      * rewrite (load_model_fresh w m Hm Hf).
        rewrite (run_turn _ _ _ _ (solo_store w _ _ m)).
        rewrite (run_turn _ _ _ _ (solo_exit _ _ _ _)).
        rewrite (run_turn _ _ _ _ (solo_return _ _ _)).
        by exists 1.
      * assert (load_model w = (Raise UnpicklingError, w)) as ->.
        { unfold load_model, mbind, py_bind, get_MODEL, getenv_model_path,
            path_exists, joblib_load. simpl. rewrite Hm.
          rewrite bool_decide_eq_true_2 by (rewrite Hf; eauto). simpl.
          by rewrite Hf. }
        rewrite (run_turn _ _ _ _ (solo_exit w _ _ _)).
        rewrite run_finished by done. by exists 1.
    + rewrite (load_model_missing w Hm Hf).
      rewrite (run_turn _ _ _ _ (solo_path_missing w _ _ Hf)).
      rewrite (run_turn _ _ _ _ (solo_exit w _ _ _)).
      rewrite run_finished by done. by exists 0.
Qed.




End ConcurrentFacts.

(** * Further properties *)

(** ** The resolver and the orchestrator, beyond the stated rules *)

Module SeverityMore.
Import StaticAnalysis MlModel HybridDetector Spec SeverityFacts ScorerFacts.

(** X1. [compute_severity] reads the probability with [.get] and a
    default: a dict without the key [probability] is treated as one that
    holds [0.0], and the call returns; with a float under the key the call
    returns; with [None] or a string under it the comparison raises
    [TypeError]. *)
Theorem compute_severity_probability_entry {F : Type} (fs : list F)
    (d : gmap string pyval) (t : float) :
  match d !! "probability" with
  | None =>
      compute_severity fs d t
      = compute_severity fs (<["probability" := VFloat 0%float]> d) t
      ∧ ∃ s, compute_severity fs d t = Return s
  | Some (VFloat p) => ∃ s, compute_severity fs d t = Return s
  | Some VNone | Some (VStr _) => compute_severity fs d t = Raise TypeError
  end.
Proof.
  destruct (d !! "probability") as [[|p|s]|] eqn:Hp.
  - unfold compute_severity, dict_get. by rewrite Hp.
  - rewrite (compute_severity_table fs d p t Hp). eauto.
  - unfold compute_severity, dict_get. by rewrite Hp.
  - split.
    + unfold compute_severity, dict_get.
      rewrite Hp, lookup_insert_eq, lookup_insert_ne by done. done.
    + unfold compute_severity, dict_get. rewrite Hp. simpl.
      destruct (PrimFloat.leb t 0); simpl; repeat case_match; eauto.
Qed.


(** X2. Whatever the scorer says, a report with a finding is never rated
    below [MEDIUM], and a report without a finding never gets the top
    rating. *)
Theorem compute_severity_floor {F : Type} (fs : list F)
    (d : gmap string pyval) (t : float) (s : string) :
  compute_severity fs d t = Return s →
  (fs ≠ [] → s = "HIGHty" ∨ s = "MEDIUM")
  ∧ (fs = [] → s = "MEDIUM" ∨ s = "SAFEtt").
Proof.
  unfold compute_severity. rewrite has_static_nonempty.
  destruct (py_ge _ _) as [above|]; simpl; [|done].
  destruct fs; simpl; repeat case_match; intros [= <-]; split; auto; done.
Qed.

Lemma compute_severity_floor_witness :
  compute_severity ["x = eval(y)"] (score_dict "safe" 0.25%float) 0.5%float
  = Return "MEDIUM"
  ∧ ("MEDIUM" = "HIGHty" ∨ "MEDIUM" = "MEDIUM").
Proof.
  split; [by vm_compute|].
  apply (compute_severity_floor ["x = eval(y)"]
           (score_dict "safe" 0.25%float) 0.5%float "MEDIUM");
    [by vm_compute | done].
Defined.

(** The orchestrator, run after the scorer. *)
Lemma analyze_file_run (path code : string) (w : world) :
  analyze_file path code w =
    match predict_vulnerability code default_threshold w with
    | (Return d, w') =>
        match compute_severity (analyze_code_static code) d default_threshold with
        | Return sev =>
            (Return {| file_path := path;
                       static_findings := analyze_code_static code;
                       ml_result := d; severity := sev |}, w')
        | Raise e => (Raise e, w')
        end
    | (Raise e, w') => (Raise e, w')
    end.
Proof.
  unfold analyze_file, mbind at 1, py_bind.
  destruct (predict_vulnerability code default_threshold w) as [[d|e] w'];
    [|done].
  unfold mbind, py_bind, pure, mret, py_ret.
  by destruct (compute_severity _ _ _).
Qed.

Lemma label_of_vulnerable (t p : float) :
  String.eqb (label_of t p) "vulnerable" = PrimFloat.leb t p.
Proof. unfold label_of. by destruct (PrimFloat.leb t p). Qed.

(** What a returned report holds, given the probability the model gave. *)
Lemma analyze_file_returns (path code : string) (w w' : world) r :
  analyze_file path code w = (Return r, w') →
  ∃ p,
    predict_vulnerability code default_threshold w
    = (Return (score_dict (label_of default_threshold p) p), w')
    ∧ r = {| file_path := path;
             static_findings := analyze_code_static code;
             ml_result := score_dict (label_of default_threshold p) p;
             severity :=
               match analyze_code_static code,
                     PrimFloat.leb default_threshold p with
               | _ :: _, true => "HIGHty"
               | [], true | _ :: _, false => "MEDIUM"
               | [], false => "SAFEtt"
               end |}.
Proof.
  rewrite analyze_file_run.
  destruct (predict_vulnerability code default_threshold w) as [[d|e] w1] eqn:Hp;
    [|done].
  destruct (predict_vulnerability_returns _ _ _ _ _ Hp) as [p ->].
  rewrite (compute_severity_table _ _ p _ (score_dict_probability _ _)).
  rewrite label_eqb_vulnerable, label_of_vulnerable.
  intros [= <- <-]. exists p. split; [done|]. f_equal.
  by destruct (analyze_code_static code), (PrimFloat.leb default_threshold p).
Qed.

(** X3. In a report that [analyze_file] returns, the severity is decided
    by two facts alone: whether the report's findings are empty, and
    whether its probability entry is at least 0.5. *)
Theorem analyze_file_severity (path code : string) (w w' : world) r :
  analyze_file path code w = (Return r, w') →
  ∃ p,
    ml_result r !! "probability" = Some (VFloat p)
    ∧ severity r =
        match static_findings r, PrimFloat.leb 0.5 p with
        | _ :: _, true => "HIGHty"
        | [], true | _ :: _, false => "MEDIUM"
        | [], false => "SAFEtt"
        end.
Proof.
  intros Hrun. destruct (analyze_file_returns _ _ _ _ _ Hrun) as (p & _ & ->).
  exists p. simpl. by rewrite score_dict_probability.
Qed.

Lemma analyze_file_severity_witness :
  ∃ p,
    score_dict "vulnerable" 0.75%float !! "probability" = Some (VFloat p)
    ∧ "HIGHty" =
        match analyze_code_static "x = eval(y)", PrimFloat.leb 0.5 p with
        | _ :: _, true => "HIGHty"
        | [], true | _ :: _, false => "MEDIUM"
        | [], false => "SAFEtt"
        end.
Proof.
  exact (analyze_file_severity "a.py" "x = eval(y)" cold_world
           (install demo_model cold_world)
           {| file_path := "a.py";
              static_findings := analyze_code_static "x = eval(y)";
              ml_result := score_dict "vulnerable" 0.75%float;
              severity := "HIGHty" |} eq_refl).
Defined.

(** X4. Once [analyze_file] has returned, the same call in the world it
    left returns the same report and leaves that world as it is; and no
    call of [analyze_file], on any file, changes that world. *)
Theorem analyze_file_repeatable (path code : string) (w w' : world) r :
  analyze_file path code w = (Return r, w') →
  analyze_file path code w' = (Return r, w')
  ∧ ∀ path2 code2, (analyze_file path2 code2 w').2 = w'.
Proof.
  intros Hrun.
  destruct (analyze_file_returns _ _ _ _ _ Hrun) as (p & Hp & Hr).
  rewrite predict_vulnerability_run in Hp.
  destruct (load_model w) as [[[m|]|e] w1] eqn:Hl; try done.
  destruct (load_model_returns _ _ _ Hl) as (m' & [= <-] & Hm).
  assert (w1 = w') as ->.
  { destruct (predict_proba m [code] !! 0) as [row|]; [|by injection Hp].
    destruct (row !! 1); by injection Hp. }
  pose proof (load_model_cached w' m Hm) as Hwarm.
  split.
  - rewrite <- Hrun, !analyze_file_run, !predict_vulnerability_run, Hl, Hwarm.
    done.
  - intros path2 code2.
    rewrite analyze_file_run, predict_vulnerability_run, Hwarm.
    destruct (predict_proba m [code2] !! 0) as [row|]; [|done].
    destruct (row !! 1); [|done].
    by destruct (compute_severity _ _ _).
Qed.

Lemma analyze_file_repeatable_witness :
  let r := {| file_path := "a.py";
              static_findings := analyze_code_static "x = eval(y)";
              ml_result := score_dict "vulnerable" 0.75%float;
              severity := "HIGHty" |} in
  analyze_file "a.py" "x = eval(y)" (install demo_model cold_world)
  = (Return r, install demo_model cold_world)
  ∧ ∀ path2 code2,
      (analyze_file path2 code2 (install demo_model cold_world)).2
      = install demo_model cold_world.
Proof.
  exact (analyze_file_repeatable "a.py" "x = eval(y)" cold_world
           (install demo_model cold_world) _ eq_refl).
Defined.

End SeverityMore.

(** ** How the scorer fails, and what it keeps *)

Module ScorerMore.
Import StaticAnalysis MlModel HybridDetector Spec AppSpec ConcurrentSpec.
Import SeverityFacts ScorerFacts.

Lemma load_model_unreadable (w : world) :
  _MODEL w = None → files w !! configured_path w = Some Garbage →
  load_model w = (Raise UnpicklingError, w).
Proof.
  intros Hm Hf.
  unfold load_model, mbind, py_bind, get_MODEL, getenv_model_path,
    path_exists, joblib_load. simpl. rewrite Hm.
  rewrite bool_decide_eq_true_2 by (rewrite Hf; eauto). simpl.
  by rewrite Hf.
Qed.

(** X5. With a model in the cache [predict_vulnerability] leaves the
    globals as they are and has two ways out: it returns the dict of the
    probability [p] and its label when [predict_proba] gives a first row
    with a second entry [p], and it raises [IndexError] when the row or
    the entry is not there. *)
Theorem predict_vulnerability_cached (code : string) (t : float)
    (w : world) (m : Model) :
  _MODEL w = Some m →
  predict_vulnerability code t w =
    (match (predict_proba m [code] !! 0) ≫= (.!! 1) with
     | Some p => Return (score_dict (label_of t p) p)
     | None => Raise IndexError
     end, w).
Proof.
  intros Hm. rewrite predict_vulnerability_run, (load_model_cached w m Hm).
  destruct (predict_proba m [code] !! 0) as [row|]; [|done]. simpl.
  by destruct (row !! 1).
Qed.

Lemma predict_vulnerability_cached_witness :
  predict_vulnerability "" 0.5%float picky_world
  = (Raise IndexError, picky_world)
  ∧ predict_vulnerability "x = 1" 0.5%float picky_world
    = (Return (score_dict "vulnerable" 0.75%float), picky_world).
Proof.
  split.
  - exact (predict_vulnerability_cached "" 0.5%float picky_world picky_model
             eq_refl).
  - exact (predict_vulnerability_cached "x = 1" 0.5%float picky_world
             picky_model eq_refl).
Defined.

(** X6. What [load_model] returns is the global [_MODEL] as the call
    leaves it, and the call changes nothing else of the globals. When
    that value is a model, then in any world whose [_MODEL] is that model
    [load_model] returns it without touching the world, and
    [predict_vulnerability] leaves the world as it is. *)
Theorem load_model_sticky (w w1 : world) (r : option Model) :
  load_model w = (Return r, w1) →
  r = _MODEL w1
  ∧ same_settings w w1
  ∧ ∀ m w2, r = Some m → _MODEL w2 = Some m →
            load_model w2 = (Return (Some m), w2)
            ∧ ∀ code t, (predict_vulnerability code t w2).2 = w2.
Proof.
  intros Hl. split_and!.
  - destruct (load_model_returns _ _ _ Hl) as (m & -> & Hm). by rewrite Hm.
  - destruct (_MODEL w) as [m|] eqn:Hm.
    + rewrite (load_model_cached w m Hm) in Hl. by injection Hl as _ <-.
    + destruct (files w !! configured_path w) as [[m|]|] eqn:Hf.
      * rewrite (load_model_fresh w m Hm Hf) in Hl. by injection Hl as _ <-.
      * by rewrite (load_model_unreadable w Hm Hf) in Hl.
      * by rewrite (load_model_missing w Hm Hf) in Hl.
  - intros m w2 _ Hw2.
    pose proof (load_model_cached w2 m Hw2) as Hwarm. split; [done|].
    intros code t. rewrite predict_vulnerability_run, Hwarm.
    destruct (predict_proba m [code] !! 0) as [row|]; [|done].
    by destruct (row !! 1).
Qed.

Lemma load_model_sticky_witness :
  Some demo_model = _MODEL (install demo_model cold_world)
  ∧ same_settings cold_world (install demo_model cold_world)
  ∧ ∀ m w2, Some demo_model = Some m → _MODEL w2 = Some m →
            load_model w2 = (Return (Some m), w2)
            ∧ ∀ code t, (predict_vulnerability code t w2).2 = w2.
Proof.
  exact (load_model_sticky cold_world (install demo_model cold_world)
           (Some demo_model) eq_refl).
Defined.

End ScorerMore.

(** ** The loop of the webhook *)

Module AppFacts.
Import StaticAnalysis MlModel HybridDetector App Spec AppSpec.
Import SeverityFacts ScorerFacts SeverityMore.


Lemma report_of_not_HIGH (f : FileInfo) (p : float) :
  String.eqb (severity (report_of f p)) "HIGH" = false.
Proof.
  unfold report_of. simpl.
  by destruct (analyze_code_static (content f)),
       (PrimFloat.leb default_threshold p).
Qed.

(** The loop, one entry at a time. *)
Lemma analyze_changed_cons f rest rs hs w :
  analyze_changed (f :: rest) rs hs w =
    match analyze_file (filename f) (content f) w with
    | (Return r, w1) =>
        analyze_changed rest (rs ++ [r])
          (if String.eqb (severity r) "HIGH" then hs ++ [r] else hs) w1
    | (Raise e, w1) => (Raise e, w1)
    end.
Proof.
  simpl. unfold mbind at 1, py_bind.
  by destruct (analyze_file (filename f) (content f) w) as [[r|e] w1].
Qed.

Lemma analyze_changed_returns files rs hs w rs' hs' w' :
  analyze_changed files rs hs w = (Return (rs', hs'), w') →
  hs' = hs
  ∧ ∃ ps, length ps = length files
          ∧ rs' = rs ++ zip_with report_of files ps.
Proof.
  revert rs hs w. induction files as [|f files IH]; intros rs hs w.
  - intros [= <- <- <-]. split; [done|]. exists []. by rewrite app_nil_r.
  - rewrite analyze_changed_cons.
    destruct (analyze_file (filename f) (content f) w) as [[r|e] w1] eqn:Hf;
      [|done].
    destruct (analyze_file_returns _ _ _ _ _ Hf) as (p & _ & Hr).
    change (r = report_of f p) in Hr. subst r.
    rewrite report_of_not_HIGH. intros Hrest.
    destruct (IH _ _ _ Hrest) as (-> & ps & Hlen & ->).
    split; [done|]. exists (p :: ps). simpl. split; [by rewrite Hlen|].
    by rewrite <- app_assoc.
Qed.

Lemma analyze_file_warm (path code : string) (w : world) (m : Model) :
  _MODEL w = Some m →
  (analyze_file path code w).2 = w
  ∧ ∀ p, (predict_proba m [code] !! 0) ≫= (.!! 1) = Some p →
         analyze_file path code w
         = (Return (report_of {| filename := path; content := code;
                                 status := "" |} p), w).
Proof.
  intros Hm. pose proof (load_model_cached w m Hm) as Hwarm.
  rewrite analyze_file_run, predict_vulnerability_run, Hwarm. split.
  - destruct (predict_proba m [code] !! 0) as [row|]; [|done].
    destruct (row !! 1); [|done]. by destruct (compute_severity _ _ _).
  - intros p Hp. destruct (predict_proba m [code] !! 0) as [row|]; [|done].
    simpl in Hp. rewrite Hp.
    rewrite (compute_severity_table _ _ p _ (score_dict_probability _ _)).
    rewrite label_eqb_vulnerable, label_of_vulnerable.
    unfold report_of. simpl. do 2 f_equal.
    by destruct (analyze_code_static code), (PrimFloat.leb default_threshold p).
Qed.

Lemma analyze_changed_warm files rs hs w m :
  _MODEL w = Some m →
  Forall (λ f, is_Some ((predict_proba m [content f] !! 0) ≫= (.!! 1))) files →
  ∃ new, analyze_changed files rs hs w = (Return (rs ++ new, hs), w).
Proof.
  intros Hm Hall. revert rs. induction Hall as [|f files [p Hp] _ IH]; intros rs.
  - exists []. by rewrite app_nil_r.
  - rewrite analyze_changed_cons.
    destruct (analyze_file_warm (filename f) (content f) w m Hm) as [_ Hret].
    rewrite (Hret p Hp).
    change (report_of _ p) with (report_of f p).
    rewrite report_of_not_HIGH.
    destruct (IH (rs ++ [report_of f p])) as [new ->].
    exists (report_of f p :: new). by rewrite <- app_assoc.
Qed.

(** X7. The loop of [github_webhook] gives one report per changed file,
    in the order of the files: the report carries the file's name, the
    static findings of its content, a probability, and the label that
    goes with that probability at 0.5. With a model loaded whose
    [predict_proba] gives every content a row of two entries, the loop
    returns, with no report in the high-severity list and the globals
    unchanged. *)
Theorem run_analysis_reports (files : list FileInfo) (w : world) :
  (∀ rs hs w',
     run_analysis files w = (Return (rs, hs), w') →
     Forall2 (λ f r,
                file_path r = filename f
                ∧ static_findings r = analyze_code_static (content f)
                ∧ ∃ p, ml_result r !! "probability" = Some (VFloat p)
                       ∧ ml_result r !! "label"
                         = Some (VStr (if PrimFloat.leb 0.5 p
                                       then "vulnerable" else "safe")))
             files rs)
  ∧ (∀ m,
       _MODEL w = Some m →
       Forall (λ f, is_Some ((predict_proba m [content f] !! 0) ≫= (.!! 1)))
         files →
       ∃ rs, run_analysis files w = (Return (rs, []), w)).
Proof.
  split.
  - intros rs hs w' Hrun.
    destruct (analyze_changed_returns _ _ _ _ _ _ _ Hrun)
      as (_ & ps & Hlen & ->). simpl.
    clear Hrun. revert ps Hlen.
    induction files as [|f files IH]; intros [|p ps] Hlen;
      [constructor | done | done |].
    injection Hlen as Hlen.
    change (zip_with report_of (f :: files) (p :: ps))
      with (report_of f p :: zip_with report_of files ps).
    constructor; [|by apply IH].
    split; [done|]. split; [done|]. exists p. split.
    + exact (score_dict_probability _ _).
    + exact (score_dict_label _ _).
  - intros m Hm Hall.
    destruct (analyze_changed_warm files [] [] w m Hm Hall) as [new Hnew].
    by exists new.
Qed.


Lemma run_analysis_reports_witness :
  ∃ rs, run_analysis two_files (install demo_model cold_world)
        = (Return (rs, []), install demo_model cold_world).
Proof.
  apply (proj2 (run_analysis_reports two_files (install demo_model cold_world))
           demo_model eq_refl).
  repeat constructor; by eexists.
Defined.

(** X8. Whenever the loop of [github_webhook] returns, the list of
    high-severity reports is empty, so the Slack notification of step 5 is
    not sent: no report carries the severity [HIGH] the loop compares
    with. *)
Theorem run_analysis_never_high (files : list FileInfo) (w w' : world) rs hs :
  run_analysis files w = (Return (rs, hs), w') →
  hs = [] ∧ notifies_slack hs = false
  ∧ Forall (λ r, severity r ≠ "HIGH") rs.
Proof.
  intros Hrun. destruct (analyze_changed_returns _ _ _ _ _ _ _ Hrun)
    as (-> & ps & Hlen & ->). split; [done|]. split; [done|].
  simpl. clear Hrun. revert ps Hlen.
  induction files as [|f files IH]; intros [|p ps] Hlen;
    [constructor | done | done |].
  injection Hlen as Hlen.
  change (zip_with report_of (f :: files) (p :: ps))
    with (report_of f p :: zip_with report_of files ps).
  constructor; [|by apply IH].
  apply String.eqb_neq, report_of_not_HIGH.
Qed.


Lemma run_analysis_never_high_witness :
  (@nil AnalysisResult) = [] ∧ notifies_slack (@nil AnalysisResult) = false
  ∧ Forall (λ r, severity r ≠ "HIGH")
      [report_of {| filename := "a.py"; content := "x = eval(y)";
                    status := "modified" |} 0.75%float;
       report_of {| filename := "b.py"; content := "x = 1";
                    status := "added" |} 0.75%float].
Proof.
  apply (run_analysis_never_high two_files (install demo_model cold_world)
           (install demo_model cold_world)).
  by vm_compute.
Defined.

Lemma analyze_changed_app files1 files2 rs hs w :
  analyze_changed (files1 ++ files2) rs hs w =
    match analyze_changed files1 rs hs w with
    | (Return (rs', hs'), w') => analyze_changed files2 rs' hs' w'
    | (Raise e, w') => (Raise e, w')
    end.
Proof.
  revert rs hs w. induction files1 as [|f files1 IH]; intros rs hs w; [done|].
  change ((f :: files1) ++ files2) with (f :: (files1 ++ files2)).
  rewrite !analyze_changed_cons.
  destruct (analyze_file (filename f) (content f) w) as [[r|e] w1]; [|done].
  apply IH.
Qed.

(** X9. The loop of [github_webhook] has no handler of its own: when the
    files before [f] are analysed and [analyze_file] raises on [f], the
    loop raises that exception, and the reports gathered so far and the
    files after [f] play no part. *)
Theorem run_analysis_aborts (files1 files2 : list FileInfo) (f : FileInfo)
    (w w1 w2 : world) rs hs (e : exn) :
  run_analysis files1 w = (Return (rs, hs), w1) →
  analyze_file (filename f) (content f) w1 = (Raise e, w2) →
  run_analysis (files1 ++ f :: files2) w = (Raise e, w2).
Proof.
  unfold run_analysis. intros H1 Hf.
  by rewrite analyze_changed_app, H1, analyze_changed_cons, Hf.
Qed.


Lemma run_analysis_aborts_witness :
  run_analysis
    ([ {| filename := "a.py"; content := "x = eval(y)"; status := "modified" |} ]
     ++ {| filename := "empty.py"; content := ""; status := "added" |}
     :: [ {| filename := "b.py"; content := "x = 1"; status := "added" |} ])
    picky_world
  = (Raise IndexError, picky_world).
Proof.
  by apply (run_analysis_aborts _ _ _ picky_world picky_world picky_world
              [report_of {| filename := "a.py"; content := "x = eval(y)";
                            status := "modified" |} 0.75%float] []).
Defined.

Lemma analyze_changed_warm_world files rs hs w m :
  _MODEL w = Some m → (analyze_changed files rs hs w).2 = w.
Proof.
  intros Hm. revert rs hs. induction files as [|f files IH]; intros rs hs;
    [done|].
  rewrite analyze_changed_cons.
  pose proof (proj1 (analyze_file_warm (filename f) (content f) w m Hm)) as Hw.
  destruct (analyze_file (filename f) (content f) w) as [[r|e] w1];
    simpl in Hw; subst w1; [apply IH | done].
Qed.

(** X10. From a world with no model loaded and a readable artifact at the
    configured path, the loop of [github_webhook] leaves the world with
    that model installed as soon as there is one file, however many files
    follow and whether or not it returns; with no file the world is
    untouched. *)
Theorem run_analysis_loads_once (files : list FileInfo) (w : world) (m : Model) :
  _MODEL w = None →
  MlModel.files w !! configured_path w = Some (Pickled m) →
  (run_analysis files w).2 = match files with [] => w | _ => install m w end.
Proof.
  intros Hm Hf. destruct files as [|f files]; [done|].
  unfold run_analysis. rewrite analyze_changed_cons.
  assert ((analyze_file (filename f) (content f) w).2 = install m w) as Hw.
  { rewrite analyze_file_run, predict_vulnerability_run.
    rewrite (load_model_fresh w m Hm Hf).
    destruct (predict_proba m [content f] !! 0) as [row|]; [|done].
    destruct (row !! 1); [|done]. by destruct (compute_severity _ _ _). }
  destruct (analyze_file (filename f) (content f) w) as [[r|e] w1];
    simpl in Hw; subst w1; [|done].
  by apply (analyze_changed_warm_world _ _ _ _ m).
Qed.

Lemma run_analysis_loads_once_witness :
  (run_analysis two_files cold_world).2 = install demo_model cold_world.
Proof.
  exact (run_analysis_loads_once two_files cold_world demo_model
           eq_refl eq_refl).
Defined.

End AppFacts.

(** ** The findings as a whole *)

Module StaticMore.
Import Re StaticAnalysis Spec StaticSpec StaticFacts.

(** X11. [analyze_code_static] returns no finding exactly when no line of
    the text is matched by any pattern of any rule group. *)
Theorem no_findings_iff_quiet (code : string) :
  analyze_code_static code = [] ↔ Forall matches_nothing (Str.splitlines code).
Proof.
  rewrite analyze_code_static_groups, Forall_forall. split.
  - intros Hnil ln Hln rule_name patterns pat Hg Hpat.
    destruct (search pat ln) eqn:Hs; [|done].
    apply list_elem_of_lookup in Hln as [i Hi].
    assert (finding_of rule_name (S i) ln pat ∈ @nil Finding) as Hin;
      [|by apply elem_of_nil in Hin].
    rewrite <- Hnil. apply list_elem_of_bind. exists (rule_name, patterns).
    split; [|done]. apply elem_of_group_findings.
    exists (S i), ln, pat. simpl. rewrite Nat.sub_0_r.
    split; [lia|]. done.
  - intros Hq.
    destruct (rule_groups ≫= _) as [|f fs] eqn:Hfs; [done|].
    assert (f ∈ f :: fs) as Hin by left. rewrite <- Hfs in Hin.
    apply list_elem_of_bind in Hin as ([rule_name patterns] & Hin & Hg).
    apply elem_of_group_findings in Hin
      as (idx & ln & pat & _ & Hln & Hpat & Hs & _).
    apply list_elem_of_lookup_2 in Hln.
    by rewrite (Hq ln Hln rule_name patterns pat Hg Hpat) in Hs.
Qed.

Lemma filter_none {A} (P : A → Prop) `{∀ x, Decision (P x)} (l : list A) :
  Forall (λ x, ¬ P x) l → filter P l = [].
Proof.
  induction 1 as [|x l Hx _ IH]; [done|]. by rewrite filter_cons_False.
Qed.

Lemma length_bind_le {A B} (f : A → list B) (l : list A) (k : nat) :
  (∀ x, length (f x) ≤ k) → length (l ≫= f) ≤ k * length l.
Proof.
  intros Hf. induction l as [|x l IH]; csimpl; [lia|].
  rewrite length_app. specialize (Hf x). lia.
Qed.

Lemma length_enumerate {A} (l : list A) (start : nat) :
  length (enumerate l start) = length l.
Proof. revert start. induction l; intros; simpl; auto. Qed.

Lemma length_group_findings lines patterns rule_name :
  length (group_findings lines patterns rule_name)
  ≤ length patterns * length lines.
Proof.
  unfold group_findings.
  rewrite <- (length_enumerate lines 1). apply length_bind_le.
  intros [idx ln]. pose proof (length_filter (λ pat, search pat ln = true) patterns).
  assert (∀ l : list Pattern,
            length (l ≫= λ pat, [finding_of rule_name idx ln pat]) = length l)
    as ->; [|done].
  induction l; csimpl; auto.
Qed.

(** X12. A text of [n] lines gives at most [6 * n] findings, and at most
    [2 * n] findings of any one rule: each of the three groups has two
    patterns, and a pattern reports a line once. *)
Theorem findings_bounded (code : string) :
  length (analyze_code_static code) ≤ 6 * length (Str.splitlines code)
  ∧ ∀ rule_name,
      length (filter (λ f, rule f = rule_name) (analyze_code_static code))
      ≤ 2 * length (Str.splitlines code).
Proof.
  rewrite analyze_code_static_groups. unfold rule_groups. csimpl.
  rewrite app_nil_r.
  pose proof (length_group_findings (Str.splitlines code)
                SQL_INJECTION_PATTERNS "SQL_INJECTION") as H1.
  pose proof (length_group_findings (Str.splitlines code)
                HARDCODED_CREDENTIAL_PATTERNS "HARDCODED_CREDENTIAL") as H2.
  pose proof (length_group_findings (Str.splitlines code)
                UNSAFE_EVAL_PATTERNS "UNSAFE_EVAL") as H3.
  simpl in H1, H2, H3. split.
  - rewrite !length_app. lia.
  - intros rule_name. rewrite !filter_app, !length_app.
    assert (∀ name patterns,
              name ≠ rule_name →
              filter (λ f, rule f = rule_name)
                (group_findings (Str.splitlines code) patterns name) = [])
      as Hother.
    { intros name patterns Hne. apply filter_none, Forall_forall.
      intros f Hf Hr.
      pose proof (group_findings_rule name patterns (Str.splitlines code)) as Hall.
      rewrite Forall_forall in Hall. rewrite (Hall f Hf) in Hr. done. }
    pose proof (length_filter (λ f, rule f = rule_name)
                  (group_findings (Str.splitlines code)
                     SQL_INJECTION_PATTERNS "SQL_INJECTION")).
    pose proof (length_filter (λ f, rule f = rule_name)
                  (group_findings (Str.splitlines code)
                     HARDCODED_CREDENTIAL_PATTERNS "HARDCODED_CREDENTIAL")).
    pose proof (length_filter (λ f, rule f = rule_name)
                  (group_findings (Str.splitlines code)
                     UNSAFE_EVAL_PATTERNS "UNSAFE_EVAL")).
    destruct (decide (rule_name = "SQL_INJECTION")) as [->|?];
      [rewrite (Hother "HARDCODED_CREDENTIAL"), (Hother "UNSAFE_EVAL") by done;
       simpl; lia|].
    destruct (decide (rule_name = "HARDCODED_CREDENTIAL")) as [->|?];
      [rewrite (Hother "SQL_INJECTION"), (Hother "UNSAFE_EVAL") by done;
       simpl; lia|].
    destruct (decide (rule_name = "UNSAFE_EVAL")) as [->|?];
      [rewrite (Hother "SQL_INJECTION"), (Hother "HARDCODED_CREDENTIAL") by done;
       simpl; lia|].
    rewrite !Hother by done. simpl. lia.
Qed.


Lemma enumerate_app {A} (l1 l2 : list A) (start : nat) :
  enumerate (l1 ++ l2) start
  = enumerate l1 start ++ enumerate l2 (start + length l1).
Proof.
  revert start. induction l1 as [|x l1 IH]; intros start; simpl.
  - by rewrite Nat.add_0_r.
  - rewrite IH. do 3 f_equal. lia.
Qed.

Lemma group_from_shift lines patterns rule_name (k start : nat) :
  ('(idx, ln) ← enumerate lines (k + start);
   pat ← filter (λ pat, search pat ln = true) patterns;
   [finding_of rule_name idx ln pat])
  = shift k <$>
      ('(idx, ln) ← enumerate lines start;
       pat ← filter (λ pat, search pat ln = true) patterns;
       [finding_of rule_name idx ln pat]).
Proof.
  revert start. induction lines as [|ln lines IH]; intros start; csimpl;
    [done|].
  rewrite fmap_app. f_equal.
  - induction (filter _ patterns) as [|pat pats IHp]; csimpl; [done|].
    by rewrite IHp.
  - rewrite <- IH. by rewrite Nat.add_succ_r.
Qed.

(** X13. [_scan_patterns] works line by line: the findings of two blocks
    of lines put together are the findings of the first block, followed by
    the findings of the second block with their line numbers moved by the
    length of the first. *)
Theorem scan_patterns_app (lines1 lines2 : list string)
    (patterns : list Pattern) (rule_name : string) :
  _scan_patterns (lines1 ++ lines2) patterns rule_name
  = _scan_patterns lines1 patterns rule_name
    ++ (shift (length lines1) <$> _scan_patterns lines2 patterns rule_name).
Proof.
  rewrite !scan_patterns_group. unfold group_findings.
  rewrite enumerate_app, bind_app. f_equal.
  rewrite (Nat.add_comm 1). apply group_from_shift.
Qed.

End StaticMore.

(** ** Lines and snippets *)

Module TextFacts.
Import Str TextSpec.

Lemma lstrip_head (s : string) :
  lstrip s = EmptyString ∨ ∃ c t, lstrip s = String c t ∧ isspace c = false.
Proof.
  induction s as [|c s IH]; simpl; [by left|].
  destruct (isspace c) eqn:Hc; [done|]. right. eauto.
Qed.

Lemma rstrip_head (c : ascii) (t : string) :
  isspace c = false → ∃ t', rstrip (String c t) = String c t'.
Proof. intros Hc. simpl. rewrite Hc. destruct (rstrip t); eauto. Qed.

Lemma rstrip_idem (s : string) : rstrip (rstrip s) = rstrip s.
Proof.
  induction s as [|c s IH]; [done|]. simpl.
  destruct (rstrip s) as [|d u] eqn:Hs.
  - destruct (isspace c) eqn:Hc; [done|]. simpl. by rewrite Hc.
  - change (rstrip (String c (String d u))) with
      (match rstrip (String d u) with
       | EmptyString => if isspace c then EmptyString else String c EmptyString
       | t => String c t
       end).
    by rewrite IH.
Qed.

Lemma strip_idem (s : string) : strip (strip s) = strip s.
Proof.
  unfold strip. destruct (lstrip_head s) as [->|(c & t & -> & Hc)]; [done|].
  destruct (rstrip_head c t Hc) as [t' Ht']. rewrite Ht'.
  simpl lstrip. rewrite Hc. rewrite <- Ht'. apply rstrip_idem.
Qed.

Lemma all_chars_lstrip P (s : string) :
  all_chars P s = true → all_chars P (lstrip s) = true.
Proof.
  induction s as [|c s IH]; [done|]. simpl.
  intros [Hc Hs]%andb_true_iff. destruct (isspace c); [auto|].
  simpl. by rewrite Hc, Hs.
Qed.

Lemma all_chars_rstrip P (s : string) :
  all_chars P s = true → all_chars P (rstrip s) = true.
Proof.
  induction s as [|c s IH]; [done|]. simpl.
  intros [Hc Hs]%andb_true_iff. specialize (IH Hs).
  destruct (rstrip s) as [|d u].
  - destruct (isspace c); [done|]. simpl. by rewrite Hc.
  - simpl in *. by rewrite Hc, IH.
Qed.

Lemma all_chars_snoc P (s : string) (c : ascii) :
  all_chars P (s +:+ String c EmptyString) = all_chars P s && P c.
Proof.
  induction s as [|d s IH]; simpl; [by rewrite andb_true_r|].
  by rewrite IH, andb_assoc.
Qed.

Lemma splitlines_from_one_line (s cur : string) :
  one_line cur → Forall one_line (splitlines_from cur s).
Proof.
  remember (String.length s) as n eqn:Hn. revert s cur Hn.
  induction n as [n IH] using lt_wf_ind. intros s cur Hn Hcur.
  destruct s as [|c s]; simpl.
  - destruct cur; [constructor|]. by repeat constructor.
  - simpl in Hn. destruct (is_linebreak c) eqn:Hc.
    + destruct s as [|c' s'].
      * by repeat constructor.
      * destruct ((ord c =? 13)%N && (ord c' =? 10)%N).
        -- constructor; [done|]. apply (IH (String.length s')); simpl in *;
             [lia | done | done].
        -- constructor; [done|]. apply (IH (String.length (String c' s')));
             simpl in *; [lia | done | done].
    + apply (IH (String.length s)); [lia | done |].
      unfold one_line. rewrite all_chars_snoc, Hc. simpl.
      by rewrite Hcur.
Qed.

Lemma splitlines_one_line (code : string) :
  Forall one_line (splitlines code).
Proof. by apply splitlines_from_one_line. Qed.

End TextFacts.

Module SnippetFacts.
Import Re StaticAnalysis Spec StaticFacts TextSpec TextFacts.

(** X14. The snippet of a finding is a trimmed single line: stripping it
    again changes nothing, and it holds no line break. *)
Theorem snippet_is_trimmed_line (code : string) (f : Finding) :
  f ∈ analyze_code_static code →
  Str.strip (snippet f) = snippet f ∧ one_line (snippet f).
Proof.
  rewrite analyze_code_static_groups.
  intros ([rule_name patterns] & Hf & _)%list_elem_of_bind.
  apply elem_of_group_findings in Hf as (idx & ln & pat & _ & Hln & _ & _ & ->).
  simpl. split; [apply strip_idem|].
  apply list_elem_of_lookup_2 in Hln.
  pose proof (splitlines_one_line code) as Hall.
  rewrite Forall_forall in Hall. specialize (Hall ln Hln).
  by apply all_chars_rstrip, all_chars_lstrip.
Qed.

Lemma snippet_is_trimmed_line_witness :
  Str.strip "y = exec(z)" = "y = exec(z)" ∧ one_line "y = exec(z)".
Proof.
  apply (snippet_is_trimmed_line
           ("x = 1" +:+ String (ascii_of_N 10) "  y = exec(z)  ")
           {| rule := "UNSAFE_EVAL"; line := 2; snippet := "y = exec(z)";
              pattern := "\bexec\(" |}).
  vm_compute. apply list_elem_of_here.
Defined.

End SnippetFacts.

(** ** Which rules ignore case *)

Module CaseFacts.
Import Re StaticAnalysis Spec CaseSpec.

Lemma tolower_idem (c : ascii) : Str.tolower (Str.tolower c) = Str.tolower c.
Proof. by destruct c as [[] [] [] [] [] [] [] []]. Qed.

Lemma tolower_line_feed (c : ascii) :
  (Str.ord (Str.tolower c) =? 10)%N = (Str.ord c =? 10)%N.
Proof. by destruct c as [[] [] [] [] [] [] [] []]. Qed.

Lemma tolower_isspace (c : ascii) :
  Str.isspace (Str.tolower c) = Str.isspace c.
Proof. by destruct c as [[] [] [] [] [] [] [] []]. Qed.

Lemma cset_mem_tolower (cs : cset) (c : ascii) :
  case_blind_cset cs = true →
  cset_mem cs (Str.tolower c) = cset_mem cs c.
Proof.
  induction cs as [| |l|l|lo hi|a IHa b IHb]; simpl; try done.
  - intros _. by rewrite tolower_line_feed.
  - intros _. apply tolower_isspace.
  - intros _. by rewrite tolower_idem.
  - intros [Ha Hb]%andb_true_iff. by rewrite IHa, IHb.
Qed.

Lemma star_from_ext (f g : nat → list nat) (fuel i : nat) :
  (∀ j, f j = g j) → star_from f fuel i = star_from g fuel i.
Proof.
  intros Hfg. revert i. induction fuel as [|fuel IH]; intros i; simpl; [done|].
  rewrite Hfg. do 2 f_equal. apply flat_map_ext. intros j. apply IH.
Qed.

Lemma ends_lower (s : list ascii) (r : regex) (i : nat) :
  case_blind r = true → ends (Str.tolower <$> s) r i = ends s r i.
Proof.
  revert i. induction r as [|cs| |r1 IH1 r2 IH2|r1 IH1 r2 IH2|r IH];
    intros i; simpl; try done.
  - intros Hcs. rewrite list_lookup_fmap. destruct (s !! i) as [c|]; [|done].
    simpl. by rewrite cset_mem_tolower.
  - intros [H1 H2]%andb_true_iff. rewrite IH1 by done. f_equal.
    apply flat_map_ext. intros j. by apply IH2.
  - intros [H1 H2]%andb_true_iff. by rewrite IH1, IH2.
  - intros Hr. rewrite length_fmap. apply star_from_ext. intros j. by apply IH.
Qed.

Lemma search_re_lower (s : list ascii) (r : regex) :
  case_blind r = true → search_re (Str.tolower <$> s) r = search_re s r.
Proof.
  intros Hr. unfold search_re. rewrite length_fmap.
  induction (seq 0 (S (length s))) as [|i l IH]; simpl; [done|].
  by rewrite ends_lower, IH.
Qed.

Lemma chars_lower (ln : string) :
  String.list_ascii_of_string (lower ln)
  = Str.tolower <$> String.list_ascii_of_string ln.
Proof. induction ln as [|c ln IH]; simpl; [done | by rewrite IH]. Qed.

(** X15. On a line of ASCII characters the patterns compiled with
    [re.IGNORECASE] (the two SQL patterns and the credential assignment)
    match exactly when they match the lower-cased line. The access-key
    pattern and the eval patterns are compiled without the flag: the
    former matches an ASCII line whose lower-cased form it does not match,
    the latter do not match [EVAL(x)]. *)
Theorem ignorecase_rules_ignore_case :
  (∀ p ln,
     p ∈ SQL_INJECTION_PATTERNS ++ take 1 HARDCODED_CREDENTIAL_PATTERNS →
     ascii_only ln = true →
     search p (lower ln) = search p ln)
  ∧ (∃ p ln, p ∈ HARDCODED_CREDENTIAL_PATTERNS ∧ ascii_only ln = true
             ∧ search p ln = true ∧ search p (lower ln) = false)
  ∧ (∃ p ln, p ∈ UNSAFE_EVAL_PATTERNS ∧ ascii_only ln = true
             ∧ search p (lower ln) = true ∧ search p ln = false).
Proof.
  split; [|split].
  - intros p ln Hp _. unfold search. rewrite chars_lower.
    apply search_re_lower.
    assert (Forall (λ p, case_blind (compiled p) = true)
              (SQL_INJECTION_PATTERNS ++ take 1 HARDCODED_CREDENTIAL_PATTERNS))
      as Hall by (by repeat constructor).
    rewrite Forall_forall in Hall. by apply Hall.
  - eexists _, "AKIA0123456789ABCDEF". split; [by right; left|]. by vm_compute.
  - eexists _, "EVAL(x)". split; [by left|]. by vm_compute.
Qed.

Lemma ignorecase_rules_ignore_case_witness :
  ∃ p, p ∈ SQL_INJECTION_PATTERNS
       ∧ lower "Select name From users Where id = + x"
         = "select name from users where id = + x"
       ∧ search p "Select name From users Where id = + x" = true
       ∧ search p "select name from users where id = + x" = true.
Proof.
  eexists. split; [by left|]. split; [reflexivity|].
  split; [by vm_compute|].
  change "select name from users where id = + x"
    with (lower "Select name From users Where id = + x").
  rewrite (proj1 ignorecase_rules_ignore_case _
             "Select name From users Where id = + x");
    [by vm_compute | by left | by vm_compute].
Defined.

End CaseFacts.

(** ** What the eval rule matches *)

Module CallFacts.
Import Re StaticAnalysis Spec CallSpec ReFacts.

Lemma matches_chr_lit (s : list ascii) (c : ascii) (i j : nat) :
  matches s (Chr (Lit c)) i j ↔ s !! i = Some c ∧ j = S i.
Proof.
  split.
  - inversion 1 as [|? ? c' Hc Hmem| | | | | |]; subst. simpl in Hmem.
    apply Ascii.eqb_eq in Hmem. by subst.
  - intros [Hc ->]. econstructor; [done|]. simpl. apply Ascii.eqb_refl.
Qed.

Lemma matches_cat_inv (s : list ascii) (r1 r2 : regex) (i k : nat) :
  matches s (Cat r1 r2) i k ↔ ∃ j, matches s r1 i j ∧ matches s r2 j k.
Proof.
  split.
  - inversion 1; subst. eauto.
  - intros (j & ? & ?). by apply (matches_cat _ _ _ _ j).
Qed.

Lemma matches_boundary_inv (s : list ascii) (i j : nat) :
  matches s WordBoundary i j ↔ j = i ∧ at_boundary s i = true.
Proof.
  split.
  - by inversion 1; subst.
  - intros [-> ?]. by constructor.
Qed.

Lemma matches_word (s : list ascii) (name : string) (i j : nat) :
  matches s (word Lit name) i j ↔
  j = i + String.length name
  ∧ ∀ k c, String.list_ascii_of_string name !! k = Some c →
           s !! (i + k) = Some c.
Proof.
  revert i j. induction name as [|c name IH]; intros i j.
  - simpl. split.
    + inversion 1; subst. split; [lia|]. intros k c Hk. by rewrite lookup_nil in Hk.
    + intros [-> _]. rewrite Nat.add_0_r. constructor.
  - destruct name as [|d name].
    + simpl. rewrite matches_chr_lit. split.
      * intros [Hc ->]. split; [lia|]. intros [|k] c'; simpl.
        -- rewrite Nat.add_0_r. by intros [= <-].
        -- intros Hk. by rewrite lookup_nil in Hk.
      * intros [-> Hall]. split; [|lia].
        specialize (Hall 0 c eq_refl). by rewrite Nat.add_0_r in Hall.
    + change (word Lit (String c (String d name)))
        with (Cat (Chr (Lit c)) (word Lit (String d name))).
      split.
      * intros (k & H1 & H2)%matches_cat_inv.
        apply matches_chr_lit in H1 as [Hc ->].
        apply IH in H2 as [-> Hall]. split; [simpl; lia|].
        intros [|k] c'.
        -- rewrite Nat.add_0_r. by intros [= <-].
        -- intros Hk. specialize (Hall k c' Hk).
           by replace (i + S k) with (S i + k) by lia.
      * intros [-> Hall]. apply (matches_cat _ _ _ _ (S i)).
        -- apply matches_chr_lit. split; [|done].
           specialize (Hall 0 c eq_refl). by rewrite Nat.add_0_r in Hall.
        -- apply IH. split; [simpl; lia|]. intros k c' Hk.
           specialize (Hall (S k) c' Hk).
           by replace (S i + k) with (i + S k) by lia.
Qed.

Lemma lookup_block (s l : list ascii) (i : nat) :
  l ≠ [] →
  (∀ k c, l !! k = Some c → s !! (i + k) = Some c) ↔
  ∃ pre post, s = pre ++ l ++ post ∧ length pre = i.
Proof.
  intros Hl. split.
  - intros Hall.
    assert (take (length l) (drop i s) = l) as Hblock.
    { apply list_eq. intros k. destruct (l !! k) as [c|] eqn:Hk.
      - rewrite lookup_take_lt by (by apply lookup_lt_Some in Hk).
        rewrite lookup_drop. by apply Hall.
      - apply lookup_ge_None in Hk. apply lookup_ge_None.
        rewrite length_take. lia. }
    exists (take i s), (drop (length l) (drop i s)). split.
    + rewrite <- Hblock at 1. by rewrite take_drop, take_drop.
    + destruct l as [|c l]; [done|].
      specialize (Hall 0 c eq_refl). apply lookup_lt_Some in Hall.
      rewrite length_take. lia.
  - intros (pre & post & -> & <-) k c Hk.
    rewrite lookup_app_r by lia.
    replace (length pre + k - length pre) with k by lia.
    by apply lookup_app_l_Some.
Qed.

Lemma chars_app (a b : string) :
  String.list_ascii_of_string (a +:+ b)
  = String.list_ascii_of_string a ++ String.list_ascii_of_string b.
Proof. induction a as [|c a IH]; simpl; [done | by rewrite IH]. Qed.

Lemma length_chars (a : string) :
  length (String.list_ascii_of_string a) = String.length a.
Proof. induction a as [|c a IH]; simpl; [done | by rewrite IH]. Qed.


Lemma search_call_pattern (name : string) (c0 : ascii) (rest : string)
    (ln : string) :
  name = String c0 rest → Str.isword c0 = true →
  search_re (String.list_ascii_of_string ln) (call_pattern name) = true ↔
  call_site name ln.
Proof.
  intros Hname Hword. set (s := String.list_ascii_of_string ln).
  rewrite search_re_matches. unfold call_site, call_pattern. fold s.
  rewrite chars_app. simpl (String.list_ascii_of_string "(").
  set (l := String.list_ascii_of_string name).
  assert (l !! 0 = Some c0) as Hl0 by (unfold l; by rewrite Hname).
  split.
  - intros (i & j & Hi & Hm).
    apply matches_cat_inv in Hm as (i' & Hb & Hrest).
    apply matches_boundary_inv in Hb as [-> Hbound].
    apply matches_cat_inv in Hrest as (k & Hw & Hp).
    apply matches_word in Hw as [-> Hw].
    apply matches_chr_lit in Hp as [Hp _].
    assert (∀ k c, (l ++ ["("%char]) !! k = Some c → s !! (i + k) = Some c)
      as Hall.
    { intros k c Hk. apply lookup_app_Some in Hk as [Hk|[Hge Hk]].
      - by apply Hw.
      - apply list_lookup_singleton_Some in Hk as [Hk <-].
        unfold l in Hge, Hk. rewrite length_chars in Hge, Hk.
        replace (i + k) with (i + String.length name) by lia.
        exact Hp. }
    apply lookup_block in Hall as (pre & post & Hs & Hlen);
      [|by intros [_ ?]%app_eq_nil].
    exists pre, post. split; [exact Hs|].
    unfold at_boundary in Hbound.
    assert (word_at s i = true) as Hat.
    { unfold word_at. rewrite <- (Nat.add_0_r i), (Hw 0 c0 Hl0). done. }
    rewrite Hat in Hbound. subst i.
    destruct pre as [|a pre _] using rev_ind; [done|].
    rewrite last_snoc. rewrite length_app in Hbound. simpl in Hbound.
    rewrite Nat.add_1_r in Hbound. unfold word_at in Hbound.
    rewrite Hs in Hbound.
    rewrite lookup_app_l in Hbound by (rewrite length_app; simpl; lia).
    rewrite lookup_app_r in Hbound by lia.
    rewrite Nat.sub_diag in Hbound. simpl in Hbound.
    by destruct (Str.isword a).
  - intros (pre & post & Hs & Hlast).
    assert (∀ k c, (l ++ ["("%char]) !! k = Some c →
                   s !! (length pre + k) = Some c) as Hall.
    { apply lookup_block; [by intros [_ ?]%app_eq_nil|].
      by exists pre, post. }
    exists (length pre), (S (length pre + String.length name)).
    split; [rewrite Hs, length_app; lia|].
    apply (matches_cat _ _ _ _ (length pre)).
    + constructor. unfold at_boundary.
      assert (word_at s (length pre) = true) as ->.
      { unfold word_at. rewrite <- (Nat.add_0_r (length pre)).
        rewrite (Hall 0 c0); [done|]. by apply lookup_app_l_Some. }
      destruct pre as [|a pre _] using rev_ind; [done|].
      rewrite last_snoc in Hlast. rewrite length_app. simpl.
      rewrite Nat.add_1_r. unfold word_at. rewrite Hs.
      rewrite lookup_app_l by (rewrite length_app; simpl; lia).
      rewrite lookup_app_r by lia. rewrite Nat.sub_diag. simpl.
      by rewrite Hlast.
    + apply (matches_cat _ _ _ _ (length pre + String.length name)).
      * apply matches_word. split; [done|]. intros k c Hk.
        apply Hall. by apply lookup_app_l_Some.
      * apply matches_chr_lit. split; [|done]. apply Hall.
        rewrite lookup_app_r by (unfold l; by rewrite length_chars).
        unfold l. by rewrite length_chars, Nat.sub_diag.
Qed.

(** X16. The eval rule looks for call sites: [\beval\(] matches a line
    exactly when the line holds [eval(] at its start or after a character
    that is not a word character, likewise [\bexec\(]; and a line gets
    an [UNSAFE_EVAL] finding exactly when it holds such an [eval(] or
    [exec(]. *)
Theorem unsafe_eval_call_sites (ln : string) :
  (Forall2 (λ p name, search p ln = true ↔ call_site name ln)
     UNSAFE_EVAL_PATTERNS ["eval"; "exec"])
  ∧ (_scan_patterns [ln] UNSAFE_EVAL_PATTERNS "UNSAFE_EVAL" ≠ [] ↔
     call_site "eval" ln ∨ call_site "exec" ln).
Proof.
  assert (∀ name c0 rest p,
            name = String c0 rest → Str.isword c0 = true →
            compiled p = call_pattern name →
            search p ln = true ↔ call_site name ln) as Hp.
  { intros name c0 rest p Hname Hw Hc. unfold search. rewrite Hc.
    by apply (search_call_pattern name c0 rest). }
  pose proof (Hp "eval" _ _ (Build_Pattern "\beval\(" (call_pattern "eval"))
                eq_refl eq_refl eq_refl) as Heval.
  pose proof (Hp "exec" _ _ (Build_Pattern "\bexec\(" (call_pattern "exec"))
                eq_refl eq_refl eq_refl) as Hexec.
  split.
  - unfold UNSAFE_EVAL_PATTERNS. repeat constructor.
    + apply Heval. + apply Heval. + apply Hexec. + apply Hexec.
  - rewrite StaticFacts.scan_patterns_group. unfold group_findings.
    simpl enumerate. csimpl. rewrite app_nil_r.
    unfold UNSAFE_EVAL_PATTERNS. rewrite !filter_cons, filter_nil.
    rewrite <- Heval, <- Hexec.
    change (cats [WordBoundary; kw "eval"; Chr (Lit "(")]) with (call_pattern "eval").
    change (cats [WordBoundary; kw "exec"; Chr (Lit "(")]) with (call_pattern "exec").
    repeat case_decide; csimpl; intuition congruence.
Qed.

End CallFacts.

(** ** The lock in any world *)

Module ConcurrentMore.
Import MlModel Concurrent Spec ConcurrentSpec ScorerFacts ScorerMore ConcurrentFacts.

Lemma lookup_move (i j : nat) (next q : pc) (c : config) :
  callers (move i next c) !! j = Some q →
  (j = i ∧ q = next) ∨ (j ≠ i ∧ callers c !! j = Some q).
Proof.
  simpl. intros [(-> & -> & _)|[? ?]]%list_lookup_insert_Some; auto.
Qed.

Lemma lookup_move_eq (i : nat) (p next : pc) (c : config) :
  callers c !! i = Some p → callers (move i next c) !! i = Some next.
Proof.
  intros Hi. simpl. apply list_lookup_insert_eq.
  by apply lookup_lt_Some in Hi.
Qed.

Lemma lookup_move_ne (i j : nat) (next : pc) (c : config) :
  j ≠ i → callers (move i next c) !! j = callers c !! j.
Proof. intros Hne. simpl. by apply list_lookup_insert_ne. Qed.

Lemma lock_inv_step (c c' : config) :
  lock_inv c → step c c' → lock_inv c'.
Proof.
  intros [HA HB] [i Hstep]. unfold thread_step in Hstep.
  destruct (callers c !! i) as [p|] eqn:Hi; [|done].
  assert (in_block p = true → holder c = Some i) as Hmine by apply (HA i p Hi).
  assert (∀ next h g n,
            in_block next = true → h = Some i →
            (in_block p = false → holder c = None) →
            lock_inv (move i next {| globals := g; holder := h; loads := n;
                                     callers := callers c |})) as Hin.
  { intros next h g n Hnext -> Hfree. split.
    - intros j q [[-> ->]|[Hne Hj]]%lookup_move Hq; [done|]. simpl in *.
      pose proof (HA j q Hj Hq) as Hh.
      destruct (in_block p) eqn:Hp; [by rewrite Hmine in Hh|].
      by rewrite Hfree in Hh.
    - intros j [= <-]. exists next. split; [|done].
      by apply (lookup_move_eq i p). }
  assert (∀ next h g n,
            in_block next = false →
            (h = None ∧ in_block p = true) ∨ (h = holder c ∧ in_block p = false) →
            lock_inv (move i next {| globals := g; holder := h; loads := n;
                                     callers := callers c |})) as Hout.
  { intros next h g n Hnext Hcase. split.
    - intros j q [[-> ->]|[Hne Hj]]%lookup_move Hq; [congruence|]. simpl in *.
      pose proof (HA j q Hj Hq) as Hh.
      destruct Hcase as [[-> Hp]|[-> Hp]]; [|done].
      rewrite (Hmine Hp) in Hh. congruence.
    - intros j Hj. simpl in Hj.
      destruct Hcase as [[-> Hp]|[-> Hp]]; [done|].
      destruct (HB j Hj) as (q & Hq & Hqb). exists q. split; [|done].
      rewrite lookup_move_ne; [done|]. intros ->. congruence. }
  destruct p as [| | |path|m'|[e|]| |r|e]; simpl in *;
    repeat case_match; try done; injection Hstep as <-;
    first [ apply Hin; [done | by auto | by auto]
          | apply Hout; [done | by auto] ].
Qed.

Lemma lock_inv_reachable (w : world) (n : nat) (c : config) :
  rtc step (start w n) c → lock_inv c.
Proof.
  revert c. apply rtc_ind_r.
  - split; simpl; [|done]. intros i p Hi. apply lookup_replicate in Hi as [-> _].
    done.
  - intros c c' _ Hstep IH. by apply (lock_inv_step c).
Qed.

Lemma lock_inv_progress (c : config) :
  lock_inv c →
  (∃ i p, callers c !! i = Some p ∧ finished p = false) → ∃ c', step c c'.
Proof.
  intros [HA HB] (i & p & Hi & Hp).
  destruct (holder c) as [j|] eqn:Hh.
  - destruct (HB j eq_refl) as (q & Hj & Hq).
    assert (is_Some (thread_step j c)) as [c' Hc'].
    { unfold thread_step. rewrite Hj.
      destruct q as [| | |path|m'|[e|]| |r|e]; try done;
        repeat case_match; eauto. }
    exists c'. by exists j.
  - assert (is_Some (thread_step i c)) as [c' Hc'].
    { unfold thread_step. rewrite Hi.
      pose proof (HA i p Hi) as Hblock.
      destruct p as [| | |path|m'|[e|]| |r|e]; try done;
        try (by specialize (Hblock eq_refl));
        rewrite ?Hh; eauto. }
    exists c'. by exists i.
Qed.

Lemma same_settings_step (w : world) (c c' : config) :
  same_settings w (globals c) → step c c' → same_settings w (globals c').
Proof.
  intros Hsame [i Hstep]. unfold thread_step in Hstep.
  repeat case_match; try done; injection Hstep as <-; done.
Qed.

(** X17. [_MODEL_LOCK] in any world, however the callers of [load_model]
    interleave: a caller is inside the [with] block exactly when it holds
    the lock, so at most one is; the holder is one of the callers; only
    [_MODEL] of the globals can have changed; and as long as a caller is
    not done some caller can move, so the lock never blocks everybody. *)
Theorem load_model_lock_discipline (w : world) (n : nat) (c : config) :
  rtc step (start w n) c →
  (∀ i p, callers c !! i = Some p →
          (in_block p = true ↔ holder c = Some i))
  ∧ (∀ i, holder c = Some i → i < n)
  ∧ same_settings w (globals c)
  ∧ ((∃ i p, callers c !! i = Some p ∧ finished p = false) →
     ∃ c', step c c').
Proof.
  intros Hrun. pose proof (lock_inv_reachable w n c Hrun) as Hinv.
  pose proof Hinv as [HA HB]. split_and!.
  - intros i p Hi. split; [by apply HA|].
    intros Hh. destruct (HB i Hh) as (q & Hq & ?). congruence.
  - intros i Hh. destruct (HB i Hh) as (q & Hq%lookup_lt_Some & _).
    by rewrite (reachable_length w n c Hrun) in Hq.
  - revert c Hrun Hinv HA HB. apply (rtc_ind_r (λ c, _ → _ → _ → same_settings w (globals c))).
    + done.
    + intros c c' Hreach Hstep IH _ _ _.
      pose proof (lock_inv_reachable w n c Hreach) as Hinv.
      apply (same_settings_step w c); [|done]. apply IH; by destruct Hinv.
  - by apply lock_inv_progress.
Qed.

Lemma load_model_lock_discipline_witness :
  let c := run [1; 0; 1; 1; 0] (start misconfigured_world 2) in
  holder c = Some 1
  ∧ callers c !! 1 = Some (AtExit (Some (FileNotFoundError
       (not_found_message "/tmp/absent.joblib"))))
  ∧ callers c !! 0 = Some AtEnter
  ∧ ∃ c', step c c'.
Proof.
  split; [reflexivity|]. split; [reflexivity|]. split; [reflexivity|].
  destruct (load_model_lock_discipline misconfigured_world 2 _
              (run_reachable [1; 0; 1; 1; 0] (start misconfigured_world 2)))
    as (_ & _ & _ & Hgo).
  apply Hgo. exists 0, AtEnter. split; reflexivity.
Defined.

Lemma nsteps_remaining (k : nat) (c c' : config) :
  nsteps step k c c' →
  k + sum_list (remaining <$> callers c') ≤ sum_list (remaining <$> callers c).
Proof.
  induction 1 as [c|k c c1 c' Hstep _ IH]; [done|].
  apply step_decreases in Hstep. lia.
Qed.

Lemma remaining_start (w : world) (n : nat) :
  sum_list (remaining <$> callers (start w n)) = 7 * n.
Proof.
  change (callers (start w n)) with (replicate n AtEnter).
  induction n as [|n IH]; [done|].
  change (sum_list (remaining <$> replicate (S n) AtEnter))
    with (7 + sum_list (remaining <$> replicate n AtEnter)).
  lia.
Qed.

Lemma run_nsteps (schedule : list nat) (c : config) :
  nsteps step (effective schedule c) c (run schedule c).
Proof.
  revert c. induction schedule as [|i schedule IH]; intros c; simpl;
    [constructor|].
  destruct (thread_step i c) as [c'|] eqn:Hstep; simpl; [|apply IH].
  eapply nsteps_l; [by exists i | apply IH].
Qed.

Lemma run_to_end (c : config) :
  lock_inv c →
  ∃ k' c', nsteps step k' c c'
           ∧ Forall (λ p, finished p = true) (callers c')
           ∧ k' ≤ sum_list (remaining <$> callers c).
Proof.
  remember (sum_list (remaining <$> callers c)) as μ eqn:Hμ.
  revert c Hμ. induction μ as [μ IH] using lt_wf_ind. intros c -> Hinv.
  destruct (decide (Forall (λ p, finished p = true) (callers c)))
    as [Hall|Hnot].
  - exists 0, c. split; [constructor|]. split; [done | lia].
  - apply not_Forall_Exists in Hnot; [|apply _].
    apply Exists_exists in Hnot as (p & Hp & Hfin).
    apply list_elem_of_lookup in Hp as [i Hi].
    destruct (lock_inv_progress c Hinv) as [c1 Hstep].
    { exists i, p. split; [done|]. destruct (finished p) eqn:E; [by destruct Hfin | done]. }
    pose proof (step_decreases c c1 Hstep) as Hlt.
    destruct (IH _ Hlt c1 eq_refl (lock_inv_step c c1 Hinv Hstep))
      as (k' & c' & Hrun & Hall & Hle).
    exists (S k'), c'. split; [by eapply nsteps_l|]. split; [done | lia].
Qed.

(** X18. A caller of [load_model] takes at most seven statements, so [n]
    callers take at most [7 * n] together, in any world and any
    interleaving; and from wherever they are after [k] statements, the
    callers can go on until every one of them is done, within the
    [7 * n - k] statements that are left. *)
Theorem load_model_bounded (w : world) (n k : nat) (c : config) :
  nsteps step k (start w n) c →
  k + sum_list (remaining <$> callers c) ≤ 7 * n
  ∧ ∃ k' c', nsteps step k' c c'
             ∧ Forall (λ p, finished p = true) (callers c')
             ∧ k + k' ≤ 7 * n.
Proof.
  intros Hrun. pose proof (nsteps_remaining k _ _ Hrun) as Hle.
  rewrite remaining_start in Hle. split; [done|].
  destruct (run_to_end c) as (k' & c' & Hrest & Hall & Hle').
  { apply (lock_inv_reachable w n). by apply (rtc_nsteps_2 k). }
  exists k', c'. split; [done|]. split; [done | lia].
Qed.

Lemma load_model_bounded_witness :
  let c := run [0; 1; 0; 0; 0; 0; 0; 1; 0; 1] (start cold_world 2) in
  9 + sum_list (remaining <$> callers c) ≤ 7 * 2
  ∧ ∃ k' c', nsteps step k' c c'
             ∧ Forall (λ p, finished p = true) (callers c')
             ∧ 9 + k' ≤ 7 * 2.
Proof.
  exact (load_model_bounded cold_world 2 9 _
           (run_nsteps [0; 1; 0; 0; 0; 0; 0; 1; 0; 1] (start cold_world 2))).
Defined.

(** X19. With no model loaded and no file at the configured path, however
    the callers interleave: [joblib.load] is never called, the globals
    stay as they are, no caller returns, and a caller that is done has
    raised [FileNotFoundError] with the training hint. *)
Theorem load_model_missing_concurrent (w : world) (n : nat) (c : config) :
  _MODEL w = None → files w !! configured_path w = None →
  rtc step (start w n) c →
  globals c = w
  ∧ loads c = 0
  ∧ ∀ i p, callers c !! i = Some p →
           missing_pc (FileNotFoundError
                         (not_found_message (configured_path w))) p.
Proof.
  intros Hcold Hmissing. revert c. apply rtc_ind_r.
  - split; [done|]. split; [done|]. simpl.
    by intros i p [-> _]%lookup_replicate.
  - intros c c' _ [i Hstep] (Hg & Hl & Hall). unfold thread_step in Hstep.
    destruct (callers c !! i) as [p|] eqn:Hi; [|done].
    pose proof (Hall i p Hi) as Hp. rewrite Hg in Hstep.
    rewrite Hcold in Hstep.
    rewrite bool_decide_eq_false_2 in Hstep
      by (rewrite Hmissing; by intros [? ?]).
    destruct p as [| | |path|m'|[e|]| |r|e]; simpl in Hp; try done;
      repeat case_match; try done; injection Hstep as <-;
      (split; [done|]); (split; [done|]);
      intros j q [[-> ->]|[Hne Hj]]%lookup_move; try done;
      by apply (Hall j q).
Qed.

Lemma load_model_missing_concurrent_witness :
  let c := run [0; 1; 0; 0; 0; 1; 1; 1; 1] (start misconfigured_world 2) in
  callers c
  = replicate 2 (Raised (FileNotFoundError
                           (not_found_message "/tmp/absent.joblib")))
  ∧ globals c = misconfigured_world
  ∧ loads c = 0.
Proof.
  split; [reflexivity|].
  destruct (load_model_missing_concurrent misconfigured_world 2 _
              eq_refl eq_refl
              (run_reachable [0; 1; 0; 0; 0; 1; 1; 1; 1]
                 (start misconfigured_world 2)))
    as (Hg & Hl & _).
  by split.
Defined.

(** X20. With a model loaded before the callers start, however they
    interleave: [joblib.load] is never called, the globals stay as they
    are, no caller raises, and a caller that is done has returned that
    model. *)
Theorem load_model_warm_concurrent (w : world) (m : Model) (n : nat)
    (c : config) :
  _MODEL w = Some m →
  rtc step (start w n) c →
  globals c = w
  ∧ loads c = 0
  ∧ ∀ i p, callers c !! i = Some p → warm_pc m p.
Proof.
  intros Hwarm. revert c. apply rtc_ind_r.
  - split; [done|]. split; [done|]. simpl.
    by intros i p [-> _]%lookup_replicate.
  - intros c c' _ [i Hstep] (Hg & Hl & Hall). unfold thread_step in Hstep.
    destruct (callers c !! i) as [p|] eqn:Hi; [|done].
    pose proof (Hall i p Hi) as Hp. rewrite Hg in Hstep.
    rewrite Hwarm in Hstep.
    destruct p as [| | |path|m'|[e|]| |r|e]; simpl in Hp; try done;
      repeat case_match; try done; injection Hstep as <-;
      (split; [done|]); (split; [done|]);
      intros j q [[-> ->]|[Hne Hj]]%lookup_move; try done;
      by apply (Hall j q).
Qed.

Lemma load_model_warm_concurrent_witness :
  let w := install demo_model cold_world in
  let c := run [0; 1; 0; 0; 0; 1; 1; 1; 1] (start w 2) in
  callers c = replicate 2 (Returned (Some demo_model))
  ∧ globals c = w
  ∧ loads c = 0.
Proof.
  split; [reflexivity|].
  destruct (load_model_warm_concurrent (install demo_model cold_world)
              demo_model 2 _ eq_refl
              (run_reachable [0; 1; 0; 0; 0; 1; 1; 1; 1]
                 (start (install demo_model cold_world) 2)))
    as (Hg & Hl & _).
  by split.
Defined.

(** X21. One caller given seven turns or more ends where the sequential
    [load_model] ends: same globals, same value returned or exception
    raised, the lock free again; and [joblib.load] has run once when no
    model was loaded and the configured path names a file, and not at all
    otherwise. *)
Theorem single_caller_is_load_model (w : world) (k : nat) :
  run (replicate (7 + k) 0) (start w 1)
  = solo (load_model w).2 None
      (match _MODEL w, files w !! configured_path w with
       | None, Some _ => 1
       | _, _ => 0
       end)
      match (load_model w).1 with
      | Return r => Returned r
      | Raise e => Raised e
      end.
Proof.
  change (start w 1) with (solo w None 0 AtEnter).
  change (replicate (7 + k) 0) with (0 :: 0 :: 0 :: 0 :: 0 :: 0 :: 0 :: replicate k 0).
  rewrite (run_turn _ _ _ _ (solo_enter w 0)).
  destruct (_MODEL w) as [m|] eqn:Hm.
  - rewrite (load_model_cached w m Hm).
    rewrite (run_turn _ _ _ _ (solo_test_set w _ _ m Hm)).
    rewrite (run_turn _ _ _ _ (solo_exit w _ _ _)).
    rewrite (run_turn _ _ _ _ (solo_return w _ _)).
    rewrite run_finished by done. by rewrite Hm.
  - rewrite (run_turn _ _ _ _ (solo_test_unset w _ _ Hm)).
    destruct (files w !! configured_path w) as [f|] eqn:Hf.
    + rewrite (run_turn _ _ _ _ (solo_path_found w _ _ f Hf)).
      rewrite (run_turn _ _ _ _ (solo_load w _ _ _)). rewrite Hf.
      destruct f as [m|].
      * rewrite (load_model_fresh w m Hm Hf).
        rewrite (run_turn _ _ _ _ (solo_store w _ _ m)).
        rewrite (run_turn _ _ _ _ (solo_exit _ _ _ _)).
        rewrite (run_turn _ _ _ _ (solo_return _ _ _)).
        by rewrite run_finished by done.
      * rewrite (load_model_unreadable w Hm Hf).
        rewrite (run_turn _ _ _ _ (solo_exit w _ _ _)).
        by rewrite run_finished by done.
    + rewrite (load_model_missing w Hm Hf).
      rewrite (run_turn _ _ _ _ (solo_path_missing w _ _ Hf)).
      rewrite (run_turn _ _ _ _ (solo_exit w _ _ _)).
      by rewrite run_finished by done.
Qed.

End ConcurrentMore.

(** ** NaN *)

Module NanFacts.
Import MlModel HybridDetector Spec SeverityFacts.

Lemma leb_nan_r (t : float) : PrimFloat.leb t PrimFloat.nan = false.
Proof.
  rewrite FloatAxioms.leb_spec. unfold SpecFloat.SFleb.
  change (FloatOps.Prim2SF PrimFloat.nan) with SpecFloat.S754_nan.
  by destruct (FloatOps.Prim2SF t) as [[]| [] | |[] ? ?].
Qed.

Lemma leb_nan_l (p : float) : PrimFloat.leb PrimFloat.nan p = false.
Proof.
  rewrite FloatAxioms.leb_spec. unfold SpecFloat.SFleb.
  by change (FloatOps.Prim2SF PrimFloat.nan) with SpecFloat.S754_nan.
Qed.

(** X22. A comparison with NaN is false, so NaN never flags: the label
    of a NaN probability is [safe] at any threshold, as is every label
    under a NaN threshold, and [compute_severity] on such a result depends
    on the findings alone. *)
Theorem nan_never_flags {F : Type} (fs : list F) (t p : float) :
  label_of t PrimFloat.nan = "safe"
  ∧ label_of PrimFloat.nan p = "safe"
  ∧ compute_severity fs (score_dict (label_of t PrimFloat.nan) PrimFloat.nan) t
    = Return (match fs with [] => "SAFEtt" | _ => "MEDIUM" end)
  ∧ compute_severity fs (score_dict (label_of PrimFloat.nan p) p) PrimFloat.nan
    = Return (match fs with [] => "SAFEtt" | _ => "MEDIUM" end).
Proof.
  unfold label_of. rewrite leb_nan_r, leb_nan_l. split_and!; try done.
  - rewrite (compute_severity_table fs _ PrimFloat.nan t)
      by apply score_dict_probability.
    rewrite leb_nan_r, label_eqb_vulnerable. by destruct fs.
  - rewrite (compute_severity_table fs _ p PrimFloat.nan)
      by apply score_dict_probability.
    rewrite leb_nan_l, label_eqb_vulnerable. by destruct fs.
Qed.

End NanFacts.
